(** * ros2graph.api: name resolution and the DOT writer

    A shallow embedding of [ros2graph/ros2graph/api/__init__.py]:
    the name helpers ([parse_node_name], [get_id], [get_node_names],
    [sorted_iteritems]) and the [DotWriter] class, followed by the
    properties of the specification that concern them.

    Conventions of the embedding.
    - A Python [str] is a list of Unicode code points ([str := list N]);
      [py "..."] turns a literal into such a list.
    - A Python [dict] built from keyword arguments is an association list in
      insertion order whose keys are pairwise distinct.
    - A Python [float] is an IEEE binary64 number ([PrimFloat]).
    - Code that writes to the sink or bumps the global counter is a function
      of the state that returns the new state and either a value or the
      exception that was raised ([M S A]). *)

From Stdlib Require Import ZArith NArith List Bool Lia Floats String Ascii.
From Stdlib Require Import DecimalString DecimalZ HexadecimalString HexadecimalN.
From stdpp Require Import base list sorting gmap.
Import ListNotations.

Local Open Scope Z_scope.

(** ** Strings *)

Definition char := N.
Definition str := list char.

Definition py (s : string) : str :=
  List.map N_of_ascii (list_ascii_of_string s).

Definition unpy (s : str) : string :=
  string_of_list_ascii (List.map ascii_of_N s).

Definition LF : char := 10%N.
Definition TAB : char := 9%N.
Definition DQUOTE : char := 34%N.
Definition SLASH : char := 47%N.
Definition BACKSLASH : char := 92%N.

(** [s.startswith(p)] *)
Fixpoint startswith (s p : str) : bool :=
  match p, s with
  | [], _ => true
  | _ :: _, [] => false
  | c :: p', d :: s' => N.eqb c d && startswith s' p'
  end.

(** [s.endswith(p)] *)
Definition endswith (s p : str) : bool :=
  startswith (rev s) (rev p).

(** [s.replace(old, new)] for a pattern [old] of one character, which is
    the only way the module calls it. *)
Definition replace (old : char) (new : str) (s : str) : str :=
  flat_map (fun c => if N.eqb c old then new else [c]) s.

(** The position-free core of [s.rsplit(sep, 1)]: the text before and after
    the last occurrence of [sep], when there is one. *)
Fixpoint rpartition (sep : char) (s : str) : option (str * str) :=
  match s with
  | [] => None
  | c :: t =>
      match rpartition sep t with
      | Some (a, b) => Some (c :: a, b)
      | None => if N.eqb c sep then Some ([], t) else None
      end
  end.

(** [s.rsplit(sep, 1)]: one or two pieces. *)
Definition rsplit1 (sep : char) (s : str) : list str :=
  match rpartition sep s with
  | Some (a, b) => [a; b]
  | None => [s]
  end.

(** [s.split(sep)]: the pieces between the separators, empty ones kept;
    there is always at least one piece. *)
Fixpoint split (sep : char) (s : str) : list str :=
  match s with
  | [] => [[]]
  | c :: t =>
      if N.eqb c sep then [] :: split sep t
      else match split sep t with
           | p :: ps => (c :: p) :: ps
           | [] => [[c]]
           end
  end.

(** [sep.join(parts)] *)
Fixpoint join (sep : str) (parts : list str) : str :=
  match parts with
  | [] => []
  | [p] => p
  | p :: rest => p ++ sep ++ join sep rest
  end.

(** Comparison of two strings as Python does it: code point by code point,
    a proper prefix first. *)
Fixpoint str_leb (a b : str) : bool :=
  match a, b with
  | [], _ => true
  | _ :: _, [] => false
  | x :: a', y :: b' =>
      if N.ltb x y then true
      else if N.ltb y x then false
      else str_leb a' b'
  end.

Definition str_le (a b : str) : Prop := str_leb a b = true.

#[global] Instance str_le_dec : RelDecision str_le.
Proof. intros a b. unfold str_le. apply _. Defined.

(** [str(n)] for an [int]. *)
Definition str_int (z : Z) : str :=
  py (DecimalString.NilEmpty.string_of_int (Z.to_int z)).

(** [str(b)] for a [bool]. *)
Definition str_bool (b : bool) : str :=
  if b then py "True" else py "False".

(** ** [str(x)] for a [float]

    A Python [float] is an IEEE binary64 number ([PrimFloat]), and [str]
    of it is its [repr]: the fewest digits that read back as the same
    float. A finite float is [m * 2 ^ e], as [Prim2SF] gives it. Counted in
    units of [10 ^ (- dec_places e)], both the float and the distance from
    it to the next float are whole numbers: [m * dec_unit e] and
    [dec_unit e]. *)

Definition dec_places (e : Z) : Z := if e <? 0 then - e else 0.

Definition dec_unit (e : Z) : Z := if e <? 0 then 5 ^ (- e) else 2 ^ e.

(** Just below a power of two the floats are twice as dense as above it;
    not so below the least normal float. *)
Definition denser_below (m : positive) (e : Z) : bool :=
  (Z.pos m =? 2 ^ 52) && (-1074 <? e).

(** The decimal obtained from [I] by giving up its last [p] digits, when
    one of the two nearest such decimals reads back as the float, that is,
    lies no further from [I] than half-way to the neighbouring float. A
    decimal exactly half-way reads back as the float whose mantissa is
    even. Of two decimals that read back the nearer is taken, and in a tie
    the even one. *)
Definition shortest_at (I U : Z) (even denser : bool) (p : Z) : option Z :=
  let unit := 10 ^ p in
  let c := I / unit in
  let r := I mod unit in
  let within (d gap : Z) := if even then 4 * d <=? gap else 4 * d <? gap in
  let lo_ok := within r (if denser then U else 2 * U) in
  let hi_ok := within (unit - r) (2 * U) in
  if lo_ok then
    if hi_ok && ((unit <? 2 * r) || (unit =? 2 * r) && Z.odd c)
    then Some (c + 1) else Some c
  else if hi_ok then Some (c + 1) else None.

(** The first success, giving up as many digits as possible. *)
Fixpoint shortest (I U : Z) (even denser : bool) (p : nat) : Z * Z :=
  match shortest_at I U even denser (Z.of_nat p) with
  | Some c => (c, Z.of_nat p)
  | None =>
      match p with
      | O => (I, 0)
      | S p' => shortest I U even denser p'
      end
  end.

(** The place of the first digit of the float, counted from the last. *)
Definition first_place (m : positive) (e : Z) : nat :=
  Nat.pred (length (str_int (Z.pos m * dec_unit e))).

(** The shortest decimal that reads back as [m * 2 ^ e]: the pair [(c, p)]
    stands for [c * 10 ^ (p - dec_places e)]. The search starts with one
    digit. *)
Definition shortest_decimal (m : positive) (e : Z) : Z * Z :=
  shortest (Z.pos m * dec_unit e) (dec_unit e) (Z.even (Z.pos m))
    (denser_below m e) (first_place m e).

Fixpoint rstrip_zeros (digits : str) : str :=
  match digits with
  | [] => []
  | d :: rest =>
      match rstrip_zeros rest with
      | [] => if (d =? 48)%N then [] else [d]
      | rest' => d :: rest'
      end
  end.

(** The digits of the shortest decimal, and the position of its decimal
    point counted from the first digit. *)
Definition dtoa (m : positive) (e : Z) : str * Z :=
  let '(c, p) := shortest_decimal m e in
  let digits := str_int c in
  (rstrip_zeros digits, Z.of_nat (length digits) + p - dec_places e).

(** The layout of the digits: with an exponent when the decimal point would
    be more than three places before the first digit or more than sixteen
    after it, and otherwise with the point in its place and at least one
    digit on either side of it. *)
Definition format_repr (digits : str) (decpt : Z) : str :=
  let n := Z.of_nat (length digits) in
  if (decpt <=? -4) || (16 <? decpt) then
    let exp := decpt - 1 in
    take 1 digits
    ++ (if 1 <? n then py "." ++ drop 1 digits else [])
    ++ py "e" ++ (if exp <? 0 then py "-" else py "+")
    ++ (if Z.abs exp <? 10 then py "0" else []) ++ str_int (Z.abs exp)
  else if decpt <=? 0 then
    py "0." ++ repeat 48%N (Z.to_nat (- decpt)) ++ digits
  else if decpt <? n then
    take (Z.to_nat decpt) digits ++ py "." ++ drop (Z.to_nat decpt) digits
  else
    digits ++ repeat 48%N (Z.to_nat (decpt - n)) ++ py ".0".

Definition minus_sign (s : bool) : str := if s then py "-" else [].

Definition str_float (f : float) : str :=
  match Prim2SF f with
  | S754_nan => py "nan"
  | S754_infinity s => minus_sign s ++ py "inf"
  | S754_zero s => minus_sign s ++ py "0.0"
  | S754_finite s m e =>
      let '(digits, decpt) := dtoa m e in
      minus_sign s ++ format_repr digits decpt
  end.

(** ** What the interpreter and the imported modules provide

    - [unicode_isalnum]: the Unicode database behind [str.isalnum] for the
      code points above ASCII;
    - [HIDDEN_NODE_PREFIX]: the constant imported from [rclpy.node]. *)

Class PyRuntime := {
  unicode_isalnum : char -> bool;
  HIDDEN_NODE_PREFIX : str
}.

Definition ascii_isalnum (c : char) : bool :=
  ((48 <=? c) && (c <=? 57) || (65 <=? c) && (c <=? 90)
   || (97 <=? c) && (c <=? 122))%N.

Definition char_isalnum `{PyRuntime} (c : char) : bool :=
  if (c <? 128)%N then ascii_isalnum c else unicode_isalnum c.

(** [s.isalnum()]: at least one character, and all of them alphanumeric. *)
Definition isalnum `{PyRuntime} (s : str) : bool :=
  match s with
  | [] => false
  | _ => forallb char_isalnum s
  end.

(** ** Values, exceptions and effects *)

(** The Python objects that reach the module as identifiers or attribute
    values. [VOther] stands for an object of any other type. *)
Inductive value :=
| VNone
| VBool (b : bool)
| VInt (z : Z)
| VFloat (f : float)
| VStr (s : str)
| VOther.

Definition is_none (v : value) : bool :=
  match v with VNone => true | _ => false end.

(** [dict] of keyword arguments, in insertion order. *)
Definition dict := list (str * value).

Inductive exn := TypeError | ValueError | OverflowError.

Inductive result (A : Type) :=
| Ok (a : A)
| Raise (e : exn).
Arguments Ok {A} a.
Arguments Raise {A} e.

Definition rbind {A B} (r : result A) (k : A -> result B) : result B :=
  match r with
  | Ok a => k a
  | Raise e => Raise e
  end.

(** A computation over a state [S] that may raise. *)
Definition M (S A : Type) := S -> S * result A.

Definition ret {S A} (a : A) : M S A := fun s => (s, Ok a).

Definition raise {S A} (e : exn) : M S A := fun s => (s, Raise e).

Definition bind {S A B} (m : M S A) (k : A -> M S B) : M S B :=
  fun s =>
    match m s with
    | (s', Ok a) => k a s'
    | (s', Raise e) => (s', Raise e)
    end.

Declare Scope py_scope.
Delimit Scope py_scope with py.
Notation "'let*' x ':=' m 'in' k" := (bind m (fun x => k))
  (at level 10, x name, m at level 100, k at level 200) : py_scope.
Notation "m >> k" := (bind m (fun _ => k))
  (at level 65, right associativity) : py_scope.
Local Open Scope py_scope.

(** A [for] loop whose body may [continue] (by returning early). *)
Fixpoint for_each {S A} (xs : list A) (body : A -> M S unit) : M S unit :=
  match xs with
  | [] => ret tt
  | x :: rest => body x >> for_each rest body
  end.

(** ** Name resolution *)

Record NodeName := mkNodeName {
  name : str;
  namespace : str;
  full_name : str;
  id : str
}.

(** The module-level counter [g_id] is the state. *)
Definition g_id_init : Z := 0.

Definition get_id (s : str) : M Z str :=
  fun g_id =>
    let g_id := g_id + 1 in
    (g_id, Ok (s ++ str_int g_id)).

(** [namespace, node_basename = parts]: unpacking into two names. *)
Definition unpack2 {S} (parts : list str) : M S (str * str) :=
  match parts with
  | [a; b] => ret (a, b)
  | _ => raise ValueError
  end.

Definition parse_node_name (node_name : str) : M Z NodeName :=
  let full_node_name := node_name in
  let full_node_name :=
    if negb (startswith full_node_name (py "/"))
    then py "/" ++ full_node_name
    else full_node_name in
  let* parts := unpack2 (rsplit1 SLASH full_node_name) in
  let '(namespace, node_basename) := parts in
  let namespace := if decide (namespace = []) then py "/" else namespace in
  let* i := get_id (py "node_") in
  ret (mkNodeName node_basename namespace full_node_name i).

(** [get_node_names], on the pairs that
    [node.get_node_names_and_namespaces()] returned. *)
Fixpoint get_node_names `{PyRuntime} (node_names_and_namespaces : list (str * str))
    (include_hidden_nodes : bool) : M Z (list NodeName) :=
  match node_names_and_namespaces with
  | [] => ret []
  | t :: rest =>
      if include_hidden_nodes
         || (negb (bool_decide (t.1 = []))
             && negb (startswith t.1 HIDDEN_NODE_PREFIX))
      then
        let* i := get_id (py "node_") in
        let n := mkNodeName t.1 t.2
                   (t.2 ++ (if endswith t.2 (py "/") then [] else py "/")
                        ++ t.1) i in
        let* ns := get_node_names rest include_hidden_nodes in
        ret (n :: ns)
      else get_node_names rest include_hidden_nodes
  end.

(** [d[key]] *)
Fixpoint getitem (d : dict) (key : str) : option value :=
  match d with
  | [] => None
  | (k, v) :: rest => if decide (k = key) then Some v else getitem rest key
  end.

(** [sorted_iteritems]: the keys are sorted, then each is looked up. *)
Definition sorted_iteritems (d : dict) : list (str * value) :=
  let keys := d.*1 in
  let keys := merge_sort str_le keys in
  omap (fun key => match getitem d key with
                   | Some value => Some (key, value)
                   | None => None
                   end) keys.

(** [_is_hidden_name] *)
Definition _is_hidden_name `{PyRuntime} (name : str) : bool :=
  existsb (fun part => startswith part HIDDEN_NODE_PREFIX) (split SLASH name).

(** [get_absolute_node_name]; [None] is the result for the empty name. *)
Definition get_absolute_node_name (node_name : str) : option str :=
  match node_name with
  | [] => None
  | c :: _ =>
      let node_name :=
        if negb (N.eqb c SLASH) then py "/" ++ node_name else node_name in
      Some node_name
  end.

(** [has_duplicates], on a list of strings. *)
Definition has_duplicates (values : list str) : bool :=
  bool_decide (size (list_to_set values : gset str) < length values)%nat.

Module TopicInfo.
Record t := mk {
  name : str;
  types : list str
}.
End TopicInfo.

(** The methods of the [rclpy] node that the module calls; each returns the
    pairs it has found. *)
Record Node := {
  get_node_names_and_namespaces : list (str * str);
  get_subscriber_names_and_types_by_node : str -> str -> list (str * list str);
  get_publisher_names_and_types_by_node : str -> str -> list (str * list str);
  get_client_names_and_types_by_node : str -> str -> list (str * list str);
  get_service_names_and_types_by_node : str -> str -> list (str * list str);
  get_action_server_names_and_types_by_node :
    str -> str -> list (str * list str);
  get_action_client_names_and_types_by_node :
    str -> str -> list (str * list str)
}.

Definition get_topics `{PyRuntime} (remote_node_name : str)
    (func : str -> str -> list (str * list str))
    (include_hidden_topics : bool) : M Z (list TopicInfo.t) :=
  let* node := parse_node_name remote_node_name in
  let names_and_types := func (name node) (namespace node) in
  ret (List.map (fun t => TopicInfo.mk t.1 t.2)
         (List.filter
            (fun t => include_hidden_topics || negb (_is_hidden_name t.1))
            names_and_types)).

Definition get_subscriber_info `{PyRuntime} (node : Node)
    (remote_node_name : str) (include_hidden : bool) :=
  get_topics remote_node_name (get_subscriber_names_and_types_by_node node)
    include_hidden.

Definition get_publisher_info `{PyRuntime} (node : Node)
    (remote_node_name : str) (include_hidden : bool) :=
  get_topics remote_node_name (get_publisher_names_and_types_by_node node)
    include_hidden.

Definition get_service_client_info `{PyRuntime} (node : Node)
    (remote_node_name : str) (include_hidden : bool) :=
  get_topics remote_node_name (get_client_names_and_types_by_node node)
    include_hidden.

Definition get_service_server_info `{PyRuntime} (node : Node)
    (remote_node_name : str) (include_hidden : bool) :=
  get_topics remote_node_name (get_service_names_and_types_by_node node)
    include_hidden.

Definition get_action_server_info `{PyRuntime} (node : Node)
    (remote_node_name : str) (include_hidden : bool)
    : M Z (list TopicInfo.t) :=
  let* remote_node := parse_node_name remote_node_name in
  let names_and_types :=
    get_action_server_names_and_types_by_node node
      (name remote_node) (namespace remote_node) in
  ret (List.map (fun '(n, t) => TopicInfo.mk n t)
         (List.filter (fun '(n, t) => include_hidden || negb (_is_hidden_name n))
            names_and_types)).

Definition get_action_client_info `{PyRuntime} (node : Node)
    (remote_node_name : str) (include_hidden : bool)
    : M Z (list TopicInfo.t) :=
  let* remote_node := parse_node_name remote_node_name in
  let names_and_types :=
    get_action_client_names_and_types_by_node node
      (name remote_node) (namespace remote_node) in
  ret (List.map (fun '(n, t) => TopicInfo.mk n t)
         (List.filter (fun '(n, t) => include_hidden || negb (_is_hidden_name n))
            names_and_types)).

(** ** The DOT writer

    The state is the text written to [self._fp] so far. *)

Module DotWriter.
Section Methods.
Context `{PyRuntime}.

Definition write (s : str) : M str unit :=
  fun fp => (fp ++ s, Ok tt).

Definition escape (s : str) : str :=
  let s := replace BACKSLASH [BACKSLASH; BACKSLASH] s in
  let s := replace LF (BACKSLASH :: py "n") s in
  let s := replace TAB (BACKSLASH :: py "t") s in
  let s := replace DQUOTE [BACKSLASH; DQUOTE] s in
  [DQUOTE] ++ s ++ [DQUOTE].

(** [bool] is a subclass of [int], so the first [isinstance] test accepts
    [VBool], [VInt] and [VFloat]. *)
Definition id (id : value) : M str unit :=
  let* s :=
    match id with
    | VBool b => ret (str_bool b)
    | VInt z => ret (str_int z)
    | VFloat f => ret (str_float f)
    | VStr id =>
        if isalnum id && negb (startswith id (py "0x"))
        then ret id
        else ret (escape id)
    | VNone | VOther => raise TypeError
    end in
  write s.

Definition key_value (key : str) (value : value) : M str unit :=
  id (VStr key) >>
  write (py "=") >>
  id value.

(** The loop shared by [begin_graph] and [begin_subgraph]. *)
Definition attr_stmts (attrs : dict) : M str unit :=
  for_each (sorted_iteritems attrs) (fun '(name, value) =>
    if is_none value then ret tt
    else
      write [TAB] >>
      key_value name value >>
      write (py ";" ++ [LF])).

Definition begin_graph (attrs : dict) : M str unit :=
  write (py "digraph {" ++ [LF]) >>
  attr_stmts attrs.

Definition end_graph : M str unit :=
  write (py "}" ++ [LF]).

Definition begin_subgraph (subgraph : value) (attrs : dict) : M str unit :=
  write (py "subgraph ") >>
  id subgraph >>
  write (py " {" ++ [LF]) >>
  attr_stmts attrs.

Definition end_subgraph : M str unit :=
  write (py "}" ++ [LF]).

(** The loop of [attr_list]; [first] is its local variable. *)
Fixpoint attr_items (first : bool) (items : list (str * value)) : M str unit :=
  match items with
  | [] => ret tt
  | (name, value) :: rest =>
      if is_none value then attr_items first rest
      else
        (if first then ret tt else write (py ", ")) >>
        key_value name value >>
        attr_items false rest
  end.

Definition attr_list (attrs : dict) : M str unit :=
  match attrs with
  | [] => ret tt
  | _ =>
      write (py " [") >>
      attr_items true (sorted_iteritems attrs) >>
      write (py "]")
  end.

Definition attr (what : str) (attrs : dict) : M str unit :=
  write [TAB] >>
  write what >>
  attr_list attrs >>
  write (py ";" ++ [LF]).

Definition node (node : value) (attrs : dict) : M str unit :=
  write [TAB] >>
  id node >>
  attr_list attrs >>
  write (py ";" ++ [LF]).

Definition edge (src dst : value) (attrs : dict) : M str unit :=
  write [TAB] >>
  id src >>
  write (py " -> ") >>
  id dst >>
  attr_list attrs >>
  write (py ";" ++ [LF]).

(** [clean] *)
Definition clean (dirty : str) : str :=
  join [] (List.map (fun e => if isalnum [e] then [e] else py "_") dirty).

End Methods.

(** *** [color]

    A component is an [int] or a [float]; floats are IEEE binary64
    ([PrimFloat]). *)

Inductive num := NInt (z : Z) | NFloat (f : float).

(** Truncation towards zero of a float given by sign, mantissa and
    exponent; no integer for an infinity or a NaN. *)
Definition trunc_spec_float (x : spec_float) : result Z :=
  match x with
  | S754_zero _ => Ok 0
  | S754_finite s m e =>
      let a := match e with
               | Z0 => Zpos m
               | Zpos p => Zpos m * 2 ^ Zpos p
               | Zneg p => Zpos m / 2 ^ Zpos p
               end in
      Ok (if s then - a else a)
  | S754_infinity _ => Raise OverflowError
  | S754_nan => Raise ValueError
  end.

(** [int(x)] for a float. *)
Definition int_of_float (x : float) : result Z :=
  trunc_spec_float (Prim2SF x).

(** The float an [int] becomes as an operand of a float operation. (No
    [int] reaches the multiplication below: it is [<= 0] or [>= 1].) *)
Definition to_float (x : num) : float :=
  match x with
  | NInt z => SF2Prim (binary_normalize prec emax z 0 false)
  | NFloat f => f
  end.

(** [x <= 0.0] and [x >= 1.0]; an [int] is compared by value. *)
Definition le_zero (x : num) : bool :=
  match x with
  | NInt z => z <=? 0
  | NFloat f => PrimFloat.leb f 0%float
  end.

Definition ge_one (x : num) : bool :=
  match x with
  | NInt z => 1 <=? z
  | NFloat f => PrimFloat.leb 1%float f
  end.

Definition float2int (f : num) : result Z :=
  if le_zero f then Ok 0
  else if ge_one f then Ok 255
  else int_of_float (255 * to_float f + 0.5)%float.

(** ["%x" % n] for [n >= 0]. *)
Definition hex (n : N) : str :=
  py (HexadecimalString.NilEmpty.string_of_uint (N.to_hex_uint n)).

(** ["%02x" % n]: the sign counts for the width, zeros fill on the left. *)
Definition format_02x (n : Z) : str :=
  if n <? 0 then py "-" ++ hex (Z.abs_N n)
  else
    let digits := hex (Z.to_N n) in
    repeat 48%N (2 - length digits)%nat ++ digits.

(** A list comprehension whose element expression may raise. *)
Fixpoint comprehension {A B} (f : A -> result B) (xs : list A) : result (list B) :=
  match xs with
  | [] => Ok []
  | x :: rest =>
      rbind (f x) (fun y =>
      rbind (comprehension f rest) (fun ys => Ok (y :: ys)))
  end.

Definition color (rgb : num * num * num) : result str :=
  let '(r, g, b) := rgb in
  rbind (comprehension (fun c => rbind (float2int c) (fun n => Ok (format_02x n)))
           [r; g; b])
        (fun parts => Ok (py "#" ++ join [] parts)).

End DotWriter.

(** ** Reference renderings

    The text the specification describes for an identifier, for an attribute
    entry and for an attribute list, as pure functions; the writer is
    compared with them below. *)

(** Values of numeric or string type. *)
Definition supported (v : value) : bool :=
  match v with
  | VBool _ | VInt _ | VFloat _ | VStr _ => true
  | VNone | VOther => false
  end.

(** What escaping does to one character. *)
Definition escape_char (c : char) : str :=
  if N.eqb c BACKSLASH then [BACKSLASH; BACKSLASH]
  else if N.eqb c LF then BACKSLASH :: py "n"
  else if N.eqb c TAB then BACKSLASH :: py "t"
  else if N.eqb c DQUOTE then [BACKSLASH; DQUOTE]
  else [c].

Definition quoted (s : str) : str :=
  [DQUOTE] ++ flat_map escape_char s ++ [DQUOTE].

Definition id_text `{PyRuntime} (v : value) : str :=
  match v with
  | VBool b => str_bool b
  | VInt z => str_int z
  | VFloat f => str_float f
  | VStr s => if isalnum s && negb (startswith s (py "0x")) then s else quoted s
  | VNone | VOther => []
  end.

Definition key_value_text `{PyRuntime} (kv : str * value) : str :=
  id_text (VStr kv.1) ++ py "=" ++ id_text kv.2.

Definition non_null (kv : str * value) : bool := negb (is_none kv.2).

(** The entries that are rendered: sorted by key, null values left out. *)
Definition rendered_items (attrs : dict) : list (str * value) :=
  List.filter non_null (sorted_iteritems attrs).

(** Every value that is not null is a number or a string. *)
Definition renderable (attrs : dict) : Prop :=
  Forall (fun kv => is_none kv.2 || supported kv.2 = true) attrs.

(** The text of an attribute list: nothing for the empty dictionary, and
    otherwise the bracket pair around the rendered entries. *)
Definition attr_list_text `{PyRuntime} (attrs : dict) : str :=
  match attrs with
  | [] => []
  | _ :: _ =>
      py " [" ++ join (py ", ") (key_value_text <$> rendered_items attrs)
              ++ py "]"
  end.

(** A runtime to evaluate closed examples with. The examples contain no
    code point above ASCII, so its first field is never consulted; the
    prefix is the one [rclpy] defines. *)
Definition example_runtime : PyRuntime := {|
  unicode_isalnum := fun _ => false;
  HIDDEN_NODE_PREFIX := py "_"
|}.

(** The absolute form [parse_node_name] works on. *)
Definition absolute (node_name : str) : str :=
  if startswith node_name (py "/") then node_name else py "/" ++ node_name.

(** The identifiers of the [n] allocations that follow counter value [g]. *)
Fixpoint fresh_ids (g : Z) (n : nat) : list str :=
  match n with
  | O => []
  | S n' => (py "node_" ++ str_int (g + 1)) :: fresh_ids (g + 1) n'
  end.

(** A decimal digit. *)
Definition is_digit (c : char) : bool := ((48 <=? c) && (c <=? 57))%N.

Fixpoint leading_digits (s : str) : str * str :=
  match s with
  | c :: rest =>
      if is_digit c
      then let '(a, b) := leading_digits rest in (c :: a, b)
      else ([], s)
  | [] => ([], [])
  end.

(** A plain decimal string: digits, a point and digits, after a minus sign
    or none. *)
Definition plain_decimal (s : str) : bool :=
  let body :=
    match s with
    | c :: rest => if (c =? 45)%N then rest else s
    | [] => []
    end in
  match leading_digits body with
  | (_ :: _, c :: (_ :: _) as frac) => (c =? 46)%N && forallb is_digit frac
  | _ => false
  end.

(** A number [D] is rounded to the float [I]: it lies no further from [I]
    than half-way to the next float, which is [U] above [I], and half-way
    to the float before, which is [U] below [I], or half of that where the
    floats below are denser. Exactly half-way counts when the mantissa of
    the float is even. *)
Definition rounds_to (I U : Z) (even denser : bool) (D : Z) : Prop :=
  let below := if denser then U else 2 * U in
  if even then - below ≤ 4 * (D - I) ≤ 2 * U
  else - below < 4 * (D - I) < 2 * U.

(** The decimal [c * 10 ^ (p - dec_places e)] reads back as the float
    [m * 2 ^ e]. *)
Definition reads_back (m : positive) (e : Z) (c p : Z) : Prop :=
  rounds_to (Z.pos m * dec_unit e) (dec_unit e) (Z.even (Z.pos m))
    (denser_below m e) (c * 10 ^ p).

(** One lowercase hexadecimal digit. *)
Definition hex_digit (d : Z) : char :=
  Z.to_N (if d <? 10 then 48 + d else 87 + d).

(** [float('nan')] as a colour component. *)
Definition is_nan (c : DotWriter.num) : bool :=
  match c with
  | DotWriter.NInt _ => false
  | DotWriter.NFloat f =>
      match Prim2SF f with S754_nan => true | _ => false end
  end.

(** The number [m * 2^e], counted in units of [2^(-K)]: an integer as soon
    as [-K <= e]. *)
Definition val (K m e : Z) : Z := m * 2 ^ (e + K).

(** What [clean] makes of one character. *)
Definition clean_char `{PyRuntime} (c : char) : char :=
  if char_isalnum c then c else 95%N.

(** A writer computation that only adds to the sink: on a sink that holds
    [fp] it leaves [fp] followed by what it writes to an empty sink. *)
Definition appends {A} (m : M str A) : Prop :=
  forall fp, m fp = (fp ++ (m []).1, (m []).2).

(** A process, as far as the counter is concerned: the calls that allocate
    identities, in the order they are made. *)
Inductive call :=
| CallParseNodeName (node_name : str)
| CallGetNodeNames (node_names_and_namespaces : list (str * str))
    (include_hidden_nodes : bool).

Fixpoint run_calls `{PyRuntime} (calls : list call) : M Z (list NodeName) :=
  match calls with
  | [] => ret []
  | CallParseNodeName node_name :: rest =>
      let* n := parse_node_name node_name in
      let* ns := run_calls rest in
      ret (n :: ns)
  | CallGetNodeNames l h :: rest =>
      let* ns1 := get_node_names l h in
      let* ns2 := run_calls rest in
      ret (ns1 ++ ns2)
  end.

(** * Properties *)

(** ** The order on strings *)

Lemma str_leb_refl a : str_leb a a = true.
Proof.
  induction a as [|x a IH]; simpl; [done|].
  by rewrite N.ltb_irrefl.
Qed.

Lemma str_leb_total a b : str_leb a b = true ∨ str_leb b a = true.
Proof.
  revert b. induction a as [|x a IH]; intros [|y b]; simpl; auto.
  destruct (N.ltb_spec x y), (N.ltb_spec y x); auto; lia.
Qed.

Lemma str_leb_antisym a b :
  str_leb a b = true → str_leb b a = true → a = b.
Proof.
  revert b. induction a as [|x a IH]; intros [|y b]; simpl; try done.
  destruct (N.ltb_spec x y), (N.ltb_spec y x); try done; try lia.
  intros ??. assert (x = y) as -> by lia. f_equal. auto.
Qed.

Lemma str_leb_trans a b c :
  str_leb a b = true → str_leb b c = true → str_leb a c = true.
Proof.
  revert b c. induction a as [|x a IH]; intros [|y b] [|z c]; simpl; try done.
  destruct (N.ltb_spec x y), (N.ltb_spec y x), (N.ltb_spec y z),
    (N.ltb_spec z y), (N.ltb_spec x z), (N.ltb_spec z x);
    try done; try lia.
  apply IH.
Qed.

#[global] Instance str_le_total : Total str_le.
Proof. intros a b. apply str_leb_total. Qed.

#[global] Instance str_le_trans : Transitive str_le.
Proof. intros a b c. apply str_leb_trans. Qed.

#[global] Instance str_le_antisymm : AntiSymm (=) str_le.
Proof. intros a b. apply str_leb_antisym. Qed.

(** ** Dictionaries and [sorted_iteritems] *)

Lemma getitem_elem_of d k v : getitem d k = Some v → (k, v) ∈ d.
Proof.
  induction d as [|[k' v'] d IH]; simpl; [done|].
  case_decide as Hk.
  - intros [= ->]. subst. apply list_elem_of_here.
  - intros. apply list_elem_of_further. auto.
Qed.

Lemma elem_of_getitem d k v :
  NoDup d.*1 → (k, v) ∈ d → getitem d k = Some v.
Proof.
  induction d as [|[k' v'] d IH]; simpl.
  - intros _ Hin. by apply elem_of_nil in Hin.
  - intros [Hnotin Hnd]%NoDup_cons [Heq|Hin]%elem_of_cons.
    + injection Heq as -> ->. by rewrite decide_True.
    + rewrite decide_False; [by apply IH|].
      intros ->. apply Hnotin. apply list_elem_of_fmap. by exists (k, v).
Qed.

Lemma getitem_is_Some d k : k ∈ d.*1 → is_Some (getitem d k).
Proof.
  induction d as [|[k' v'] d IH]; simpl.
  - intros Hin. by apply elem_of_nil in Hin.
  - intros [->|Hin]%elem_of_cons.
    + rewrite decide_True; eauto.
    + case_decide; eauto.
Qed.

Lemma getitem_Permutation d1 d2 k :
  NoDup d1.*1 → d1 ≡ₚ d2 → getitem d1 k = getitem d2 k.
Proof.
  intros Hnd Hp.
  assert (NoDup d2.*1) as Hnd2 by (by rewrite <- Hp).
  destruct (getitem d1 k) as [v|] eqn:E1.
  - symmetry. apply elem_of_getitem; [done|].
    rewrite <- Hp. by apply getitem_elem_of.
  - destruct (getitem d2 k) as [v|] eqn:E2; [|done].
    apply getitem_elem_of in E2. rewrite <- Hp in E2.
    apply (elem_of_getitem _ _ _ Hnd) in E2. congruence.
Qed.

(** The sorted key list does not depend on the insertion order. *)
Lemma sorted_keys_Permutation (k1 k2 : list str) :
  k1 ≡ₚ k2 → merge_sort str_le k1 = merge_sort str_le k2.
Proof.
  intros Hp. apply (Sorted_unique str_le).
  - apply (Sorted_merge_sort str_le).
  - apply (Sorted_merge_sort str_le).
  - by rewrite !merge_sort_Permutation.
Qed.

Lemma sorted_iteritems_Permutation d1 d2 :
  NoDup d1.*1 → d1 ≡ₚ d2 → sorted_iteritems d1 = sorted_iteritems d2.
Proof.
  intros Hnd Hp. unfold sorted_iteritems.
  rewrite (sorted_keys_Permutation d1.*1 d2.*1) by (by rewrite Hp).
  apply list_omap_ext. apply Forall2_same_length_lookup_2; [done|].
  intros i x y Hx Hy. assert (x = y) as -> by congruence.
  by rewrite (getitem_Permutation d1 d2 y).
Qed.

(** Every key comes out once, with the value the dictionary holds for it. *)
Lemma omap_getitem_keys d (ks : list str) :
  Forall (fun k => k ∈ d.*1) ks →
  (omap (fun key => match getitem d key with
                    | Some value => Some (key, value)
                    | None => None
                    end) ks).*1 = ks.
Proof.
  induction 1 as [|k ks Hk _ IH]; [done|].
  rewrite <- IH at 2. cbn [omap list_omap].
  by destruct (getitem_is_Some d k Hk) as [v ->].
Qed.

Lemma sorted_iteritems_keys d :
  (sorted_iteritems d).*1 = merge_sort str_le d.*1.
Proof.
  unfold sorted_iteritems. apply omap_getitem_keys.
  apply Forall_forall. intros k Hk. by rewrite merge_sort_Permutation in Hk.
Qed.

Lemma sorted_iteritems_getitem d k v :
  (k, v) ∈ sorted_iteritems d → getitem d k = Some v.
Proof.
  unfold sorted_iteritems. intros (k' & _ & Hk)%list_elem_of_omap.
  destruct (getitem d k') eqn:E; naive_solver.
Qed.

Lemma elem_of_sorted_iteritems d k v :
  getitem d k = Some v → (k, v) ∈ sorted_iteritems d.
Proof.
  intros Hg. unfold sorted_iteritems. apply list_elem_of_omap.
  exists k. rewrite Hg. split; [|done].
  rewrite merge_sort_Permutation. apply list_elem_of_fmap.
  exists (k, v). split; [done|]. by apply getitem_elem_of.
Qed.

Lemma sorted_iteritems_Sorted d : Sorted str_le (sorted_iteritems d).*1.
Proof. rewrite sorted_iteritems_keys. apply (Sorted_merge_sort str_le). Qed.

(** ** Running computations *)

Lemma bind_ok {S A B} (m : M S A) (k : A → M S B) s s' a :
  m s = (s', Ok a) → bind m k s = k a s'.
Proof. unfold bind. by intros ->. Qed.

Lemma bind_raise {S A B} (m : M S A) (k : A → M S B) s s' e :
  m s = (s', Raise e) → bind m k s = (s', Raise e).
Proof. unfold bind. by intros ->. Qed.

(** ** Escaping *)

Lemma replace_flat_map old new (f : char → str) s :
  replace old new (flat_map f s) = flat_map (fun c => replace old new (f c)) s.
Proof.
  unfold replace. induction s as [|c s IH]; simpl; [done|].
  rewrite flat_map_app. f_equal. exact IH.
Qed.

Lemma replace_as_flat_map old new s :
  replace old new s = flat_map (fun c => if N.eqb c old then new else [c]) s.
Proof. done. Qed.

Lemma escape_chars (c : char) :
  replace DQUOTE [BACKSLASH; DQUOTE]
    (replace TAB (BACKSLASH :: py "t")
       (replace LF (BACKSLASH :: py "n")
          (if N.eqb c BACKSLASH then [BACKSLASH; BACKSLASH] else [c])))
  = escape_char c.
Proof.
  unfold escape_char, replace.
  destruct (N.eqb_spec c BACKSLASH) as [->|Hb]; [done|].
  destruct (N.eqb_spec c LF) as [->|Hl]; [done|].
  destruct (N.eqb_spec c TAB) as [->|Ht]; [done|].
  destruct (N.eqb_spec c DQUOTE) as [->|Hq]; [done|].
  simpl. rewrite (proj2 (N.eqb_neq c LF)) by done. simpl.
  rewrite (proj2 (N.eqb_neq c TAB)) by done. simpl.
  by rewrite (proj2 (N.eqb_neq c DQUOTE)).
Qed.

Section Writer.
Context `{PyRuntime}.
Import DotWriter.

Lemma escape_quoted s : escape s = quoted s.
Proof.
  unfold escape, quoted. do 2 f_equal.
  rewrite (replace_as_flat_map BACKSLASH). rewrite !replace_flat_map.
  apply flat_map_ext. intros c. apply escape_chars.
Qed.

(** ** The writer against the reference renderings *)

Lemma write_run s fp : write s fp = (fp ++ s, Ok tt).
Proof. done. Qed.

Lemma id_run v fp :
  supported v = true → id v fp = (fp ++ id_text v, Ok tt).
Proof.
  destruct v; try done; intros _; unfold id, bind, ret, write; simpl; try done.
  destruct (isalnum s && negb (startswith s (py "0x"))); simpl; [done|].
  by rewrite escape_quoted.
Qed.

Lemma id_raise v fp :
  supported v = false → id v fp = (fp, Raise TypeError).
Proof. by destruct v. Qed.

Lemma key_value_run k v fp :
  supported v = true →
  key_value k v fp = (fp ++ key_value_text (k, v), Ok tt).
Proof.
  intros Hv. unfold key_value, key_value_text.
  rewrite (bind_ok _ _ _ _ _ (id_run (VStr k) fp eq_refl)).
  rewrite (bind_ok _ _ _ _ _ (write_run _ _)).
  rewrite (id_run v _ Hv). simpl. by rewrite <- !app_assoc.
Qed.

Lemma key_value_raise k v fp :
  supported v = false →
  key_value k v fp = (fp ++ id_text (VStr k) ++ py "=", Raise TypeError).
Proof.
  intros Hv. unfold key_value.
  rewrite (bind_ok _ _ _ _ _ (id_run (VStr k) fp eq_refl)).
  rewrite (bind_ok _ _ _ _ _ (write_run _ _)).
  rewrite (id_raise v _ Hv). by rewrite <- !app_assoc.
Qed.

Lemma join_cons sep (t : str) ts :
  join sep (t :: ts) = t ++ match ts with [] => [] | _ => sep ++ join sep ts end.
Proof. destruct ts; simpl; [by rewrite app_nil_r|done]. Qed.

(** The loop of [attr_list]: a separator before every entry but the first
    one written, null values passed over. *)
Lemma attr_items_run items first fp :
  Forall (fun kv => is_none kv.2 || supported kv.2 = true) items →
  attr_items first items fp =
    (fp ++ match List.filter non_null items with
           | [] => []
           | ts => (if first then [] else py ", ")
                   ++ join (py ", ") (key_value_text <$> ts)
           end, Ok tt).
Proof.
  intros Hall. revert first fp.
  induction Hall as [|[k v] items Hkv _ IH]; intros first fp.
  - simpl. by rewrite app_nil_r.
  - cbn [attr_items List.filter].
    replace (non_null (k, v)) with (negb (is_none v)) by done.
    cbn [snd] in Hkv.
    destruct (is_none v) eqn:Hnone; cbn [negb orb] in Hkv |- *; [apply IH|].
    assert ((if first then ret tt else write (py ", ")) fp
            = (fp ++ (if first then [] else py ", "), Ok tt)) as Hsep.
    { destruct first; [|done]. unfold ret. by rewrite app_nil_r. }
    rewrite (bind_ok _ _ _ _ _ Hsep).
    rewrite (bind_ok _ _ _ _ _ (key_value_run k v _ Hkv)).
    rewrite IH. f_equal. rewrite fmap_cons, join_cons, <- !app_assoc.
    do 3 f_equal. by destruct (List.filter non_null items).
Qed.

Lemma renderable_sorted attrs :
  renderable attrs →
  Forall (fun kv => is_none kv.2 || supported kv.2 = true) (sorted_iteritems attrs).
Proof.
  unfold renderable. rewrite !Forall_forall. intros Hall [k v] Hin.
  apply Hall. by apply getitem_elem_of, sorted_iteritems_getitem.
Qed.

Lemma attr_list_run attrs fp :
  renderable attrs →
  attr_list attrs fp = (fp ++ attr_list_text attrs, Ok tt).
Proof.
  intros Hr. destruct attrs as [|kv attrs].
  { simpl. unfold ret. by rewrite app_nil_r. }
  unfold attr_list, attr_list_text, rendered_items.
  rewrite (bind_ok _ _ _ _ _ (write_run _ _)).
  rewrite (bind_ok _ _ _ _ _
             (attr_items_run _ true _ (renderable_sorted _ Hr))).
  rewrite write_run. f_equal. rewrite <- !app_assoc. do 2 f_equal.
  by destruct (List.filter non_null (sorted_iteritems (kv :: attrs))).
Qed.

Lemma attr_run what attrs fp :
  renderable attrs →
  attr what attrs fp =
    (fp ++ [TAB] ++ what ++ attr_list_text attrs ++ py ";" ++ [LF], Ok tt).
Proof.
  intros Hr. unfold attr.
  rewrite (bind_ok _ _ _ _ _ (write_run _ _)).
  rewrite (bind_ok _ _ _ _ _ (write_run _ _)).
  rewrite (bind_ok _ _ _ _ _ (attr_list_run _ _ Hr)).
  rewrite write_run. by rewrite <- !app_assoc.
Qed.

Lemma node_run n attrs fp :
  supported n = true → renderable attrs →
  node n attrs fp =
    (fp ++ [TAB] ++ id_text n ++ attr_list_text attrs ++ py ";" ++ [LF], Ok tt).
Proof.
  intros Hn Hr. unfold node.
  rewrite (bind_ok _ _ _ _ _ (write_run _ _)).
  rewrite (bind_ok _ _ _ _ _ (id_run _ _ Hn)).
  rewrite (bind_ok _ _ _ _ _ (attr_list_run _ _ Hr)).
  rewrite write_run. by rewrite <- !app_assoc.
Qed.

Lemma edge_run src dst attrs fp :
  supported src = true → supported dst = true → renderable attrs →
  edge src dst attrs fp =
    (fp ++ [TAB] ++ id_text src ++ py " -> " ++ id_text dst
        ++ attr_list_text attrs ++ py ";" ++ [LF], Ok tt).
Proof.
  intros Hs Hd Hr. unfold edge.
  rewrite (bind_ok _ _ _ _ _ (write_run _ _)).
  rewrite (bind_ok _ _ _ _ _ (id_run _ _ Hs)).
  rewrite (bind_ok _ _ _ _ _ (write_run _ _)).
  rewrite (bind_ok _ _ _ _ _ (id_run _ _ Hd)).
  rewrite (bind_ok _ _ _ _ _ (attr_list_run _ _ Hr)).
  rewrite write_run. by rewrite <- !app_assoc.
Qed.

Lemma elem_of_rendered_items attrs k v :
  (k, v) ∈ rendered_items attrs ↔ (k, v) ∈ sorted_iteritems attrs ∧ v ≠ VNone.
Proof.
  unfold rendered_items.
  rewrite (list_elem_of_In (List.filter _ _) (k, v)), filter_In, <- list_elem_of_In.
  unfold non_null. cbn [snd]. destruct v; cbn; intuition congruence.
Qed.

End Writer.

(** ** The text of a float *)

Lemma shortest_at_Some I U even denser p c :
  0 < U → 0 ≤ p →
  shortest_at I U even denser p = Some c →
  rounds_to I U even denser (c * 10 ^ p)
  ∧ ∀ c', rounds_to I U even denser (c' * 10 ^ p) →
          Z.abs (c * 10 ^ p - I) ≤ Z.abs (c' * 10 ^ p - I).
Proof.
  intros HU Hp. unfold shortest_at, rounds_to.
  assert (0 < 10 ^ p) as Hunit by (apply Z.pow_pos_nonneg; lia).
  pose proof (Z.div_mod I (10 ^ p) ltac:(lia)) as Hdm.
  pose proof (Z.mod_pos_bound I (10 ^ p) Hunit) as Hr.
  set (unit := 10 ^ p) in *. set (q := I / unit) in *.
  set (r := I mod unit) in *.
  intros Hc.
  assert (∀ c', c' * unit - I = (c' - q) * unit - r) as Hdiff by (intros; lia).
  assert (∀ c', c' ≤ q ∨ q + 1 ≤ c') as Hcases by (intros; lia).
  destruct even, denser; cbn [andb] in Hc |- *;
    repeat match type of Hc with
    | context [Z.leb ?a ?b] => destruct (Z.leb_spec a b)
    | context [Z.ltb ?a ?b] => destruct (Z.ltb_spec a b)
    | context [Z.eqb ?a ?b] => destruct (Z.eqb_spec a b)
    | context [Z.odd ?a] => destruct (Z.odd a)
    end; cbn [andb orb] in Hc; try discriminate;
    injection Hc as <-;
    (split; [nia|]);
    intros c' Hc'; rewrite !Hdiff in *;
    destruct (Hcases c'); nia.
Qed.

Lemma shortest_at_None I U even denser p c' :
  0 < U → 0 ≤ p →
  shortest_at I U even denser p = None →
  ¬ rounds_to I U even denser (c' * 10 ^ p).
Proof.
  intros HU Hp. unfold shortest_at, rounds_to.
  assert (0 < 10 ^ p) as Hunit by (apply Z.pow_pos_nonneg; lia).
  pose proof (Z.div_mod I (10 ^ p) ltac:(lia)) as Hdm.
  pose proof (Z.mod_pos_bound I (10 ^ p) Hunit) as Hr.
  set (unit := 10 ^ p) in *. set (q := I / unit) in *.
  set (r := I mod unit) in *.
  intros Hc.
  assert (c' * unit - I = (c' - q) * unit - r) as Hdiff by lia.
  assert (c' ≤ q ∨ q + 1 ≤ c') as Hcases by lia.
  destruct even, denser; cbn [andb] in Hc |- *;
    repeat match type of Hc with
    | context [Z.leb ?a ?b] => destruct (Z.leb_spec a b)
    | context [Z.ltb ?a ?b] => destruct (Z.ltb_spec a b)
    | context [Z.eqb ?a ?b] => destruct (Z.eqb_spec a b)
    | context [Z.odd ?a] => destruct (Z.odd a)
    end; cbn [andb orb] in Hc; try discriminate;
    rewrite Hdiff; destruct Hcases; nia.
Qed.

Lemma shortest_at_pos I U even denser p c :
  0 < U → U ≤ I → 0 ≤ p →
  shortest_at I U even denser p = Some c → 0 < c.
Proof.
  intros HU HI Hp. unfold shortest_at.
  assert (0 < 10 ^ p) as Hunit by (apply Z.pow_pos_nonneg; lia).
  pose proof (Z.div_mod I (10 ^ p) ltac:(lia)) as Hdm.
  pose proof (Z.mod_pos_bound I (10 ^ p) Hunit) as Hr.
  set (unit := 10 ^ p) in *. set (q := I / unit) in *.
  set (r := I mod unit) in *.
  assert (0 ≤ q) as Hq by (apply Z.div_pos; lia).
  intros Hc.
  destruct even, denser; cbn [andb] in Hc |- *;
    repeat match type of Hc with
    | context [Z.leb ?a ?b] => destruct (Z.leb_spec a b)
    | context [Z.ltb ?a ?b] => destruct (Z.ltb_spec a b)
    | context [Z.eqb ?a ?b] => destruct (Z.eqb_spec a b)
    | context [Z.odd ?a] => destruct (Z.odd a)
    end; cbn [andb orb] in Hc; try discriminate;
    injection Hc as <-; nia.
Qed.

(** The search ends with a decimal that is rounded to the float, the
    nearest one at its place, and none was passed over on the way. *)
Lemma shortest_spec I U even denser p0 :
  0 < U → U ≤ I →
  ∃ c p, shortest I U even denser p0 = (c, p)
    ∧ 0 < c ∧ 0 ≤ p ≤ Z.of_nat p0
    ∧ rounds_to I U even denser (c * 10 ^ p)
    ∧ (∀ c', rounds_to I U even denser (c' * 10 ^ p) →
             Z.abs (c * 10 ^ p - I) ≤ Z.abs (c' * 10 ^ p - I))
    ∧ (∀ c' p', p < p' ≤ Z.of_nat p0 →
                ¬ rounds_to I U even denser (c' * 10 ^ p')).
Proof.
  intros HU HI. induction p0 as [|p0 IH]; cbn [shortest].
  - destruct (shortest_at I U even denser (Z.of_nat 0)) as [c|] eqn:E.
    + exists c, 0. change (Z.of_nat 0) with 0 in *.
      destruct (shortest_at_Some _ _ _ _ _ _ HU (Z.le_refl 0) E) as [Hr Hn].
      split_and!; try done; try lia.
      eapply shortest_at_pos; eauto. lia.
    + exfalso. change (Z.of_nat 0) with 0 in E.
      apply (shortest_at_None _ _ _ _ _ I HU (Z.le_refl 0)) in E.
      apply E. unfold rounds_to. rewrite Z.pow_0_r, Z.mul_1_r.
      destruct even, denser; lia.
  - destruct (shortest_at I U even denser (Z.of_nat (S p0))) as [c|] eqn:E.
    + exists c, (Z.of_nat (S p0)).
      destruct (shortest_at_Some _ _ _ _ _ _ HU (Nat2Z.is_nonneg _) E)
        as [Hr Hn].
      split_and!; try done; try lia.
      eapply shortest_at_pos; eauto. lia.
    + destruct IH as (c & p & Hs & Hc & Hp & Hr & Hn & Hm).
      exists c, p. split_and!; try done; try lia.
      intros c' p' Hp'.
      destruct (decide (p' = Z.of_nat (S p0))) as [->|Hne].
      * by apply shortest_at_None.
      * apply Hm. lia.
Qed.

Lemma dec_unit_pos e : 0 < dec_unit e.
Proof. unfold dec_unit. destruct (e <? 0) eqn:E; apply Z.pow_pos_nonneg; lia. Qed.

Lemma shortest_decimal_spec m e :
  ∃ c p, shortest_decimal m e = (c, p)
    ∧ 0 < c ∧ 0 ≤ p ≤ Z.of_nat (first_place m e)
    ∧ reads_back m e c p
    ∧ (∀ c', reads_back m e c' p →
             Z.abs (c * 10 ^ p - Z.pos m * dec_unit e)
             ≤ Z.abs (c' * 10 ^ p - Z.pos m * dec_unit e))
    ∧ (∀ c' p', p < p' ≤ Z.of_nat (first_place m e) →
                ¬ reads_back m e c' p').
Proof.
  pose proof (dec_unit_pos e) as HU.
  apply shortest_spec; [done|nia].
Qed.

Lemma py_cons a s : py (String a s) = N_of_ascii a :: py s.
Proof. done. Qed.

Lemma string_of_uint_is_digit d :
  Forall (fun c => is_digit c = true)
    (py (DecimalString.NilEmpty.string_of_uint d)).
Proof.
  induction d; cbn [DecimalString.NilEmpty.string_of_uint];
    try apply Forall_nil_2; rewrite py_cons;
    (apply Forall_cons; split; [reflexivity|exact IHd]).
Qed.

Lemma string_of_uint_zeros d :
  Forall (fun c => c = 48%N) (py (DecimalString.NilEmpty.string_of_uint d)) →
  Pos.of_uint d = 0%N.
Proof.
  induction d; cbn [DecimalString.NilEmpty.string_of_uint]; try done;
    rewrite py_cons; intros [Hc Hd]%Forall_cons; try discriminate.
  by apply IHd.
Qed.

Lemma rstrip_zeros_nil s :
  rstrip_zeros s = [] → Forall (fun c => c = 48%N) s.
Proof.
  induction s as [|c s IH]; cbn [rstrip_zeros]; [done|].
  destruct (rstrip_zeros s) as [|? ?]; [|done].
  destruct (N.eqb_spec c 48) as [->|]; [|done].
  intros _. apply Forall_cons. split; [done|by apply IH].
Qed.

Lemma rstrip_zeros_Forall (P : char → Prop) s :
  Forall P s → Forall P (rstrip_zeros s).
Proof.
  induction 1 as [|c s Hc _ IH]; cbn [rstrip_zeros]; [done|].
  destruct (rstrip_zeros s) as [|? ?].
  - destruct (c =? 48)%N; [done|]. by apply Forall_cons.
  - by apply Forall_cons.
Qed.

(** The digits of a float are digits, and there is one at least. *)
Lemma dtoa_digits m e :
  (dtoa m e).1 ≠ [] ∧ Forall (fun c => is_digit c = true) (dtoa m e).1.
Proof.
  unfold dtoa.
  destruct (shortest_decimal_spec m e) as (c & p & -> & Hc & _).
  cbn [fst]. destruct c as [|c|c]; try lia.
  unfold str_int. cbn [Z.to_int DecimalString.NilEmpty.string_of_int]. split.
  - intros Hnil%rstrip_zeros_nil%string_of_uint_zeros.
    by rewrite DecimalPos.Unsigned.of_to in Hnil.
  - apply rstrip_zeros_Forall, string_of_uint_is_digit.
Qed.

Lemma forallb_is_digit s :
  forallb is_digit s = true ↔ Forall (fun c => is_digit c = true) s.
Proof.
  induction s as [|c s IH]; cbn [forallb]; [done|].
  rewrite andb_true_iff, Forall_cons. by rewrite IH.
Qed.

Lemma leading_digits_app a c b :
  Forall (fun c => is_digit c = true) a → is_digit c = false →
  leading_digits (a ++ c :: b) = (a, c :: b).
Proof.
  intros Ha Hc. induction Ha as [|d a Hd _ IH]; cbn [app leading_digits].
  - by rewrite Hc.
  - by rewrite Hd, IH.
Qed.

Lemma leading_digits_spec s :
  s = (leading_digits s).1 ++ (leading_digits s).2
  ∧ Forall (fun c => is_digit c = true) (leading_digits s).1.
Proof.
  induction s as [|c s [IH1 IH2]]; cbn [leading_digits]; [done|].
  destruct (is_digit c) eqn:Hc; [|done].
  destruct (leading_digits s) as [a b]. cbn [fst snd] in *.
  split; [by rewrite IH1 at 1|by apply Forall_cons].
Qed.

Lemma plain_decimal_intro (neg : bool) a b :
  a ≠ [] → b ≠ [] →
  Forall (fun c => is_digit c = true) a →
  Forall (fun c => is_digit c = true) b →
  plain_decimal (minus_sign neg ++ a ++ py "." ++ b) = true.
Proof.
  intros Ha Hb Da Db.
  assert (plain_decimal (a ++ py "." ++ b) = true) as Hplain.
  { unfold plain_decimal. destruct a as [|c a]; [done|].
    apply Forall_cons in Da as Hca. destruct Hca as [Hc _].
    cbn [app]. destruct (N.eqb_spec c 45) as [->|_]; [done|].
    change (c :: a ++ py "." ++ b) with ((c :: a) ++ 46%N :: b).
    rewrite leading_digits_app by done.
    destruct b as [|d b]; [done|]. cbn [andb N.eqb Pos.eqb].
    by apply forallb_is_digit. }
  destruct neg; [|exact Hplain]. revert Hplain. unfold plain_decimal.
  destruct a as [|c a]; [done|].
  apply Forall_cons in Da as Hca. destruct Hca as [Hc _].
  cbn [minus_sign app py List.map list_ascii_of_string].
  change (N_of_ascii "-" =? 45)%N with true. cbn match.
  by destruct (N.eqb_spec c 45) as [->|_].
Qed.

Lemma plain_decimal_chars s :
  plain_decimal s = true →
  Forall (fun c => is_digit c = true ∨ c = 46%N ∨ c = 45%N) s.
Proof.
  unfold plain_decimal.
  set (body := match s with
               | c :: rest => if (c =? 45)%N then rest else s
               | [] => []
               end).
  intros Hp.
  assert (Forall (fun c => is_digit c = true ∨ c = 46%N ∨ c = 45%N) body)
    as Hbody.
  { destruct (leading_digits_spec body) as [Heq Hd].
    destruct (leading_digits body) as [a r]. cbn [fst snd] in *.
    destruct a as [|x a]; [done|]. destruct r as [|c [|y frac]]; try done.
    apply andb_prop in Hp as [Hc Hfrac]. apply N.eqb_eq in Hc as ->.
    rewrite Heq. apply Forall_app. split.
    - eapply Forall_impl; [exact Hd|]. by left.
    - apply Forall_cons. split; [by right; left|].
      apply forallb_is_digit in Hfrac.
      eapply Forall_impl; [exact Hfrac|]. by left. }
  subst body. destruct s as [|c s]; [done|].
  destruct (N.eqb_spec c 45) as [->|_]; [|done].
  apply Forall_cons. split; [by right; right|done].
Qed.

(** The layout is a plain decimal exactly when no exponent is used. *)
Lemma format_repr_plain (neg : bool) digits decpt :
  digits ≠ [] → Forall (fun c => is_digit c = true) digits →
  plain_decimal (minus_sign neg ++ format_repr digits decpt)
  = (-4 <? decpt) && (decpt <=? 16).
Proof.
  intros Hne Hd. unfold format_repr.
  assert (Forall (fun c => is_digit c = true) [48%N]) as H0
    by (by apply Forall_cons).
  assert (∀ k, Forall (fun c => is_digit c = true) (repeat 48%N k)) as Hrep.
  { intros k. induction k; [done|by apply Forall_cons]. }
  destruct (Z.leb_spec decpt (-4)) as [Hlo|Hlo].
  2: destruct (Z.ltb_spec 16 decpt) as [Hhi|Hhi].
  1, 2: cbn [orb];
    (replace ((-4 <? decpt) && (decpt <=? 16)) with false by lia);
    apply not_true_is_false; intros Hp%plain_decimal_chars;
    apply Forall_app in Hp as [_ Hp];
    apply Forall_app in Hp as [_ Hp];
    apply Forall_app in Hp as [_ Hp];
    apply Forall_app in Hp as [Hp _];
    apply Forall_cons in Hp as [Hp _];
    vm_compute in Hp; intuition discriminate.
  cbn [orb]. replace ((-4 <? decpt) && (decpt <=? 16)) with true by lia.
  destruct (Z.leb_spec decpt 0) as [Hz|Hz].
  - change (py "0." ++ repeat 48%N (Z.to_nat (- decpt)) ++ digits)
      with ([48%N] ++ py "." ++ repeat 48%N (Z.to_nat (- decpt)) ++ digits).
    apply plain_decimal_intro; try done.
    + intros Heq%app_eq_nil. by destruct Heq.
    + apply Forall_app. split; [apply Hrep|done].
  - destruct (Z.ltb_spec decpt (Z.of_nat (length digits))) as [Hn|Hn].
    + apply plain_decimal_intro.
      * intros Heq%(f_equal length). rewrite length_take in Heq.
        cbn [length] in Heq. lia.
      * intros Heq%(f_equal length). rewrite length_drop in Heq.
        cbn [length] in Heq. lia.
      * by apply Forall_take.
      * by apply Forall_drop.
    + rewrite (app_assoc digits).
      change (py ".0") with (py "." ++ [48%N]).
      apply plain_decimal_intro; try done.
      * intros Heq%app_eq_nil. by destruct Heq.
      * apply Forall_app. split; [done|apply Hrep].
Qed.

(** The layout has an [e] exactly when an exponent is used. *)
Lemma format_repr_exponent (neg : bool) digits decpt :
  digits ≠ [] → Forall (fun c => is_digit c = true) digits →
  bool_decide (101%N ∈ minus_sign neg ++ format_repr digits decpt)
  = negb ((-4 <? decpt) && (decpt <=? 16)).
Proof.
  intros Hne Hd.
  pose proof (format_repr_plain neg digits decpt Hne Hd) as Hplain.
  destruct ((-4 <? decpt) && (decpt <=? 16)) eqn:Hrange; cbn [negb].
  - apply bool_decide_eq_false. intros Hin.
    apply plain_decimal_chars in Hplain.
    rewrite Forall_forall in Hplain. apply Hplain in Hin.
    vm_compute in Hin. intuition discriminate.
  - apply bool_decide_eq_true. unfold format_repr.
    replace ((decpt <=? -4) || (16 <? decpt)) with true by lia.
    apply elem_of_app. right.
    apply elem_of_app. right. apply elem_of_app. right.
    apply elem_of_app. left. apply list_elem_of_here.
Qed.

(** What [str] makes of each kind of float. *)
Lemma str_float_cases f :
  match Prim2SF f with
  | S754_nan => str_float f = py "nan"
  | S754_infinity s => str_float f = minus_sign s ++ py "inf"
  | S754_zero s => str_float f = minus_sign s ++ py "0.0"
  | S754_finite s m e =>
      ∃ c p, shortest_decimal m e = (c, p)
        ∧ str_float f
          = minus_sign s
            ++ format_repr (rstrip_zeros (str_int c))
                 (Z.of_nat (length (str_int c)) + p - dec_places e)
        ∧ 0 < c ∧ 0 ≤ p ≤ Z.of_nat (first_place m e)
        ∧ reads_back m e c p
        ∧ (∀ c', reads_back m e c' p →
                 Z.abs (c * 10 ^ p - Z.pos m * dec_unit e)
                 ≤ Z.abs (c' * 10 ^ p - Z.pos m * dec_unit e))
        ∧ (∀ c' p', p < p' ≤ Z.of_nat (first_place m e) →
                    ¬ reads_back m e c' p')
  end.
Proof.
  unfold str_float. destruct (Prim2SF f) as [s|s| |s m e]; try done.
  destruct (shortest_decimal_spec m e) as (c & p & Hs & Hrest).
  exists c, p. split; [exact Hs|]. split; [|exact Hrest].
  unfold dtoa. by rewrite Hs.
Qed.

Lemma str_float_plain f :
  plain_decimal (str_float f)
  = match Prim2SF f with
    | S754_zero _ => true
    | S754_finite _ m e => (-4 <? (dtoa m e).2) && ((dtoa m e).2 <=? 16)
    | _ => false
    end.
Proof.
  unfold str_float. destruct (Prim2SF f) as [s|s| |s m e].
  - by destruct s.
  - by destruct s.
  - done.
  - destruct (dtoa_digits m e) as [Hne Hd].
    destruct (dtoa m e) as [digits decpt]. cbn [fst snd] in *.
    by apply format_repr_plain.
Qed.

Lemma str_float_exponent f :
  bool_decide (101%N ∈ str_float f)
  = match Prim2SF f with
    | S754_finite _ m e =>
        negb ((-4 <? (dtoa m e).2) && ((dtoa m e).2 <=? 16))
    | _ => false
    end.
Proof.
  unfold str_float. destruct (Prim2SF f) as [s|s| |s m e].
  - by destruct s.
  - by destruct s.
  - done.
  - destruct (dtoa_digits m e) as [Hne Hd].
    destruct (dtoa m e) as [digits decpt]. cbn [fst snd] in *.
    by apply format_repr_exponent.
Qed.

(** ** Attribute lists and identifiers *)

Lemma unpy_py s : unpy (py s) = s.
Proof.
  unfold unpy, py. rewrite List.map_map.
  rewrite (List.map_ext _ (fun a => a)) by apply ascii_N_embedding.
  rewrite List.map_id. apply string_of_list_ascii_of_string.
Qed.

Lemma py_inj s1 s2 : py s1 = py s2 → s1 = s2.
Proof. intros Heq. by rewrite <- (unpy_py s1), <- (unpy_py s2), Heq. Qed.

Lemma str_int_inj z1 z2 : str_int z1 = str_int z2 → z1 = z2.
Proof.
  unfold str_int. intros Heq%py_inj. apply DecimalZ.to_int_inj.
  pose proof (DecimalString.NilEmpty.isi (Z.to_int z1)) as H1.
  pose proof (DecimalString.NilEmpty.isi (Z.to_int z2)) as H2.
  rewrite Heq in H1. congruence.
Qed.

Section Claims.
Context `{PyRuntime}.
Import DotWriter.

Lemma rendered_items_all_null attrs :
  Forall (fun kv => kv.2 = VNone) attrs → rendered_items attrs = [].
Proof.
  intros Hall. unfold rendered_items.
  destruct (List.filter non_null (sorted_iteritems attrs)) as [|[k v] l] eqn:E;
    [done|].
  assert (In (k, v) (List.filter non_null (sorted_iteritems attrs))) as Hin
    by (rewrite E; by left).
  apply filter_In in Hin as [Hin Hnn]. apply list_elem_of_In in Hin.
  apply sorted_iteritems_getitem, getitem_elem_of in Hin.
  rewrite Forall_forall in Hall. apply Hall in Hin. simpl in Hin. by subst v.
Qed.

(** C1 (as amended). In the attribute list of an [attr], [node] or [edge]
    statement the entries whose value is [None] are left out: the list holds
    exactly the entries of the dictionary whose value is not [None], sorted
    by key, as [key=value] joined by [", "]. The empty dictionary gives no
    bracketed list at all. A dictionary that is not empty always gives the
    bracket pair, so one whose values are all [None] gives [" []"]. *)
Theorem attr_list_skips_null (attrs : dict) (fp : str) :
  renderable attrs →
  attr_list attrs fp = (fp ++ attr_list_text attrs, Ok tt)
  ∧ (attrs = [] → attr_list_text attrs = [])
  ∧ (attrs ≠ [] →
     attr_list_text attrs =
       py " [" ++ join (py ", ") (key_value_text <$> rendered_items attrs)
               ++ py "]")
  ∧ (∀ k v, (k, v) ∈ rendered_items attrs ↔
            (k, v) ∈ sorted_iteritems attrs ∧ v ≠ VNone)
  ∧ (attrs ≠ [] → Forall (fun kv => kv.2 = VNone) attrs →
     attr_list_text attrs = py " []")
  ∧ (∀ what, attr what attrs fp =
       (fp ++ [TAB] ++ what ++ attr_list_text attrs ++ py ";" ++ [LF], Ok tt))
  ∧ (∀ n, supported n = true →
       node n attrs fp =
       (fp ++ [TAB] ++ id_text n ++ attr_list_text attrs ++ py ";" ++ [LF],
        Ok tt))
  ∧ (∀ src dst, supported src = true → supported dst = true →
       edge src dst attrs fp =
       (fp ++ [TAB] ++ id_text src ++ py " -> " ++ id_text dst
           ++ attr_list_text attrs ++ py ";" ++ [LF], Ok tt)).
Proof.
  intros Hr. split_and!.
  - by apply attr_list_run.
  - by intros ->.
  - by destruct attrs.
  - intros k v. apply elem_of_rendered_items.
  - intros Hne Hall. destruct attrs; [done|].
    unfold attr_list_text. by rewrite rendered_items_all_null.
  - intros what. by apply attr_run.
  - intros n Hn. by apply node_run.
  - intros src dst Hs Hd. by apply edge_run.
Qed.

(** C2. [begin_graph()], then [node("n1", label="hello world", color=None)],
    then [end_graph()] add exactly
    [digraph {\n\tn1 [label="hello world"];\n}\n] to the sink. *)
Theorem end_to_end_example (fp : str) :
  (begin_graph [] >>
   node (VStr (py "n1"))
        [(py "label", VStr (py "hello world")); (py "color", VNone)] >>
   end_graph) fp
  = (fp ++ py "digraph {" ++ [LF]
        ++ [TAB] ++ py "n1 [label=" ++ [DQUOTE] ++ py "hello world" ++ [DQUOTE]
        ++ py "];" ++ [LF]
        ++ py "}" ++ [LF], Ok tt).
Proof.
  assert (begin_graph [] fp = (fp ++ py "digraph {" ++ [LF], Ok tt)) as Hb
    by done.
  rewrite (bind_ok _ _ _ _ _ Hb).
  erewrite bind_ok; [|apply node_run; [done|by repeat constructor]].
  unfold end_graph. rewrite write_run. f_equal.
  rewrite <- !app_assoc. do 4 f_equal.
Qed.

(** C3. An [int] is written as its decimal numeral, unquoted. A [float] is
    written as [str] gives it, unquoted: [nan], [inf] or [-inf] when it is
    not finite, [0.0] or [-0.0] when it is zero, and otherwise the digits of
    a decimal that reads back as the float, laid out by [format_repr]. That
    decimal is the nearest one to the float at its decimal place, and no
    decimal at a coarser place, up to the place of the first digit of the
    float, reads back as the float. The text
    is a plain decimal (digits, a point, digits) exactly when the float is
    zero, or finite with the decimal point more than [-4] and at most [16]
    places after the first digit; a finite float outside that range, and no
    other, is written with an exponent after an [e], as in [1e+22]. A
    string that is alphanumeric and does not start with [0x] is
    written as it is. Any other string is written between double quotes
    after the four replacements, made in the order backslash, newline, tab,
    double quote; their net effect is to put a backslash form in place of
    each of these four characters and to leave every other character
    alone. *)
Theorem id_rendering (fp : str) :
  (∀ z, id (VInt z) fp = (fp ++ str_int z, Ok tt)
        ∧ DecimalString.NilEmpty.int_of_string (unpy (str_int z))
          = Some (Z.to_int z)
        ∧ Z.of_int (Z.to_int z) = z)
  ∧ (∀ f, id (VFloat f) fp = (fp ++ str_float f, Ok tt))
  ∧ (∀ f, match Prim2SF f with
          | S754_nan => str_float f = py "nan"
          | S754_infinity s => str_float f = minus_sign s ++ py "inf"
          | S754_zero s => str_float f = minus_sign s ++ py "0.0"
          | S754_finite s m e =>
              ∃ c p, shortest_decimal m e = (c, p)
                ∧ str_float f
                  = minus_sign s
                    ++ format_repr (rstrip_zeros (str_int c))
                         (Z.of_nat (length (str_int c)) + p - dec_places e)
                ∧ 0 < c ∧ 0 ≤ p ≤ Z.of_nat (first_place m e)
                ∧ reads_back m e c p
                ∧ (∀ c', reads_back m e c' p →
                         Z.abs (c * 10 ^ p - Z.pos m * dec_unit e)
                         ≤ Z.abs (c' * 10 ^ p - Z.pos m * dec_unit e))
                ∧ (∀ c' p', p < p' ≤ Z.of_nat (first_place m e) →
                            ¬ reads_back m e c' p')
          end)
  ∧ (∀ f, plain_decimal (str_float f)
          = match Prim2SF f with
            | S754_zero _ => true
            | S754_finite _ m e =>
                (-4 <? (dtoa m e).2) && ((dtoa m e).2 <=? 16)
            | _ => false
            end)
  ∧ (∀ f, bool_decide (101%N ∈ str_float f)
          = match Prim2SF f with
            | S754_finite _ m e =>
                negb ((-4 <? (dtoa m e).2) && ((dtoa m e).2 <=? 16))
            | _ => false
            end)
  ∧ (str_float 0.5 = py "0.5"
     ∧ str_float 0x1.999999999999ap-4 = py "0.1"
     ∧ str_float (-100) = py "-100.0"
     ∧ str_float 0x1p+53 = py "9007199254740992.0"
     ∧ str_float 1e16 = py "1e+16"
     ∧ str_float 1e22 = py "1e+22"
     ∧ str_float 0x1p-14 = py "6.103515625e-05"
     ∧ str_float 0x1p-1074 = py "5e-324")%float
  ∧ (∀ s, isalnum s = true → startswith s (py "0x") = false →
          id (VStr s) fp = (fp ++ s, Ok tt))
  ∧ (∀ s, isalnum s = false ∨ startswith s (py "0x") = true →
          id (VStr s) fp = (fp ++ escape s, Ok tt))
  ∧ (∀ s, escape s =
          [DQUOTE]
          ++ replace DQUOTE [BACKSLASH; DQUOTE]
               (replace TAB (BACKSLASH :: py "t")
                  (replace LF (BACKSLASH :: py "n")
                     (replace BACKSLASH [BACKSLASH; BACKSLASH] s)))
          ++ [DQUOTE])
  ∧ (∀ s, escape s = [DQUOTE] ++ flat_map escape_char s ++ [DQUOTE])
  ∧ escape_char BACKSLASH = [BACKSLASH; BACKSLASH]
  ∧ escape_char LF = BACKSLASH :: py "n"
  ∧ escape_char TAB = BACKSLASH :: py "t"
  ∧ escape_char DQUOTE = [BACKSLASH; DQUOTE]
  ∧ (∀ c, c ≠ BACKSLASH → c ≠ LF → c ≠ TAB → c ≠ DQUOTE →
          escape_char c = [c]).
Proof.
  split; [|split; [|split; [|split; [|split; [|split]]]]].
  - intros z. split_and!; [done| |apply DecimalZ.of_to].
    unfold str_int. rewrite unpy_py. apply DecimalString.NilEmpty.isi.
  - done.
  - apply str_float_cases.
  - apply str_float_plain.
  - apply str_float_exponent.
  - split_and!; vm_compute; reflexivity.
  - split_and!; try done.
    + intros s Ha Hx. unfold id. by rewrite Ha, Hx.
    + intros s Hs. unfold id.
      assert (isalnum s && negb (startswith s (py "0x")) = false) as ->;
        [|done].
      destruct Hs as [-> | ->]; [done|apply andb_false_r].
    + apply escape_quoted.
    + intros c Hb Hl Ht Hq. unfold escape_char.
      by rewrite !(proj2 (N.eqb_neq c _)).
Qed.

(** C10. A [bool] passes the test for numbers, so it is written unquoted as
    [True] or [False] and nothing is raised. [TypeError] is raised for
    exactly the values that are no [bool], [int], [float] or [str]. *)
Theorem id_bool_is_number (fp : str) :
  (∀ b, id (VBool b) fp = (fp ++ (if b then py "True" else py "False"), Ok tt))
  ∧ (∀ k b, key_value k (VBool b) fp
            = (fp ++ id_text (VStr k) ++ py "="
                  ++ (if b then py "True" else py "False"), Ok tt))
  ∧ (∀ v, (∃ fp' e, id v fp = (fp', Raise e)) ↔
          (∀ b, v ≠ VBool b) ∧ (∀ z, v ≠ VInt z)
          ∧ (∀ f, v ≠ VFloat f) ∧ (∀ s, v ≠ VStr s))
  ∧ (∀ v fp' e, id v fp = (fp', Raise e) → e = TypeError).
Proof.
  split_and!.
  - by intros [].
  - intros k b. rewrite (key_value_run k (VBool b) fp eq_refl).
    unfold key_value_text. by destruct b.
  - intros v. split.
    + intros (fp' & e & Hraise).
      destruct (supported v) eqn:Hs.
      * rewrite (id_run v fp Hs) in Hraise. discriminate.
      * by destruct v.
    + intros (Hb & Hz & Hf & Hs). exists fp, TypeError.
      apply id_raise. destruct v; try done.
      * by destruct (Hb b). * by destruct (Hz z).
      * by destruct (Hf f). * by destruct (Hs s).
  - intros v fp' e Hraise. destruct (supported v) eqn:Hs.
    + rewrite (id_run v fp Hs) in Hraise. discriminate.
    + rewrite (id_raise v fp Hs) in Hraise. congruence.
Qed.

(** ** Propagation of [TypeError] *)

Lemma sep_run (first : bool) fp :
  (if first then ret tt else write (py ", ")) fp
  = (fp ++ (if first then [] else py ", "), Ok tt).
Proof. destruct first; [|done]. unfold ret. by rewrite app_nil_r. Qed.

Lemma attr_items_raise items first fp :
  Exists (fun kv => kv.2 = VOther) items →
  ∃ fp', attr_items first items fp = (fp', Raise TypeError).
Proof.
  revert first fp. induction items as [|[k v] items IH]; intros first fp Hex.
  { by apply Exists_nil in Hex. }
  apply Exists_cons in Hex. cbn [attr_items snd] in *.
  destruct (is_none v) eqn:Hnone.
  { apply IH. destruct Hex as [->|]; [done|assumption]. }
  rewrite (bind_ok _ _ _ _ _ (sep_run first fp)).
  destruct (supported v) eqn:Hs.
  - rewrite (bind_ok _ _ _ _ _ (key_value_run k v _ Hs)).
    apply IH. destruct Hex as [->|]; [done|assumption].
  - rewrite (bind_raise _ _ _ _ _ (key_value_raise k v _ Hs)). eauto.
Qed.

Lemma attr_stmts_raise attrs k fp :
  getitem attrs k = Some VOther →
  ∃ fp', attr_stmts attrs fp = (fp', Raise TypeError).
Proof.
  intros Hg%elem_of_sorted_iteritems. unfold attr_stmts.
  assert (Exists (fun kv => kv.2 = VOther) (sorted_iteritems attrs)) as Hex.
  { apply Exists_exists. by exists (k, VOther). }
  clear Hg. revert fp.
  induction (sorted_iteritems attrs) as [|[k' v] items IH]; intros fp.
  { by apply Exists_nil in Hex. }
  apply Exists_cons in Hex. cbn [for_each snd] in *.
  destruct (is_none v) eqn:Hnone.
  { unfold bind at 1, ret at 1. apply IH.
    destruct Hex as [->|]; [done|assumption]. }
  destruct (supported v) eqn:Hs.
  - erewrite bind_ok; [apply IH; destruct Hex as [->|]; [done|assumption]|].
    rewrite (bind_ok _ _ _ _ _ (write_run _ _)).
    rewrite (bind_ok _ _ _ _ _ (key_value_run k' v _ Hs)).
    apply write_run.
  - eexists. apply bind_raise.
    rewrite (bind_ok _ _ _ _ _ (write_run _ _)).
    by rewrite (bind_raise _ _ _ _ _ (key_value_raise k' v _ Hs)).
Qed.

Lemma attr_list_raise attrs k fp :
  getitem attrs k = Some VOther →
  ∃ fp', attr_list attrs fp = (fp', Raise TypeError).
Proof.
  intros Hg. destruct attrs as [|kv attrs]; [done|].
  apply elem_of_sorted_iteritems in Hg.
  destruct (attr_items_raise (sorted_iteritems (kv :: attrs)) true
              (fp ++ py " [")) as [fp' Hr].
  { apply Exists_exists. by exists (k, VOther). }
  exists fp'. unfold attr_list.
  rewrite (bind_ok _ _ _ _ _ (write_run _ _)).
  by rewrite (bind_raise _ _ _ _ _ Hr).
Qed.

(** An identifier is written or [TypeError] is raised, nothing else. *)
Lemma id_cases v fp :
  id v fp = (fp ++ id_text v, Ok tt) ∨ id v fp = (fp, Raise TypeError).
Proof.
  destruct (supported v) eqn:Hs; [left; by apply id_run|right; by apply id_raise].
Qed.

(** C7. Writing an identifier or a value that is no number and no string
    raises [TypeError] (the specification's [UnsupportedAttributeTypeError]);
    a number or a string never raises. The exception leaves every enclosing
    method at once: the rest of the method is not run and the call ends with
    the same exception. An attribute value [None] is left out of the
    statement and so is never written. *)
Theorem unsupported_type_raises (fp : str) :
  (∀ v, supported v = false → id v fp = (fp, Raise TypeError))
  ∧ (∀ v, supported v = true → id v fp = (fp ++ id_text v, Ok tt))
  ∧ (∀ k v, supported v = false →
       key_value k v fp = (fp ++ id_text (VStr k) ++ py "=", Raise TypeError))
  ∧ (∀ attrs k, getitem attrs k = Some VOther →
       (∃ fp', attr_list attrs fp = (fp', Raise TypeError))
       ∧ (∀ what, ∃ fp', attr what attrs fp = (fp', Raise TypeError))
       ∧ (∀ n, ∃ fp', node n attrs fp = (fp', Raise TypeError))
       ∧ (∀ src dst, ∃ fp', edge src dst attrs fp = (fp', Raise TypeError))
       ∧ (∃ fp', begin_graph attrs fp = (fp', Raise TypeError))
       ∧ (∀ g, ∃ fp', begin_subgraph g attrs fp = (fp', Raise TypeError)))
  ∧ (∀ n attrs, supported n = false →
       node n attrs fp = (fp ++ [TAB], Raise TypeError))
  ∧ (∀ src dst attrs, supported src = false →
       edge src dst attrs fp = (fp ++ [TAB], Raise TypeError))
  ∧ (∀ g attrs, supported g = false →
       begin_subgraph g attrs fp = (fp ++ py "subgraph ", Raise TypeError))
  ∧ (∀ (A B : Type) (m : M str A) (k : A → M str B) fp' e,
       m fp = (fp', Raise e) → bind m k fp = (fp', Raise e)).
Proof.
  split_and!.
  - intros v. apply id_raise.
  - intros v. apply id_run.
  - intros k v. apply key_value_raise.
  - intros attrs k Hg. split_and!.
    + by apply (attr_list_raise attrs k).
    + intros what. unfold attr.
      rewrite (bind_ok _ _ _ _ _ (write_run _ _)).
      rewrite (bind_ok _ _ _ _ _ (write_run _ _)).
      destruct (attr_list_raise attrs k ((fp ++ [TAB]) ++ what) Hg) as [fp' Hr].
      exists fp'. by rewrite (bind_raise _ _ _ _ _ Hr).
    + intros n. unfold node.
      rewrite (bind_ok _ _ _ _ _ (write_run _ _)).
      destruct (id_cases n (fp ++ [TAB])) as [Hn|Hn].
      * rewrite (bind_ok _ _ _ _ _ Hn).
        destruct (attr_list_raise attrs k ((fp ++ [TAB]) ++ id_text n) Hg)
          as [fp' Hr].
        exists fp'. by rewrite (bind_raise _ _ _ _ _ Hr).
      * rewrite (bind_raise _ _ _ _ _ Hn). eauto.
    + intros src dst. unfold edge.
      rewrite (bind_ok _ _ _ _ _ (write_run _ _)).
      destruct (id_cases src (fp ++ [TAB])) as [Hs|Hs];
        [|rewrite (bind_raise _ _ _ _ _ Hs); eauto].
      rewrite (bind_ok _ _ _ _ _ Hs).
      rewrite (bind_ok _ _ _ _ _ (write_run _ _)).
      destruct (id_cases dst (((fp ++ [TAB]) ++ id_text src) ++ py " -> "))
        as [Hd|Hd]; [|rewrite (bind_raise _ _ _ _ _ Hd); eauto].
      rewrite (bind_ok _ _ _ _ _ Hd).
      edestruct (attr_list_raise attrs k) as [fp' Hr]; [exact Hg|].
      exists fp'. by rewrite (bind_raise _ _ _ _ _ Hr).
    + unfold begin_graph.
      rewrite (bind_ok _ _ _ _ _ (write_run _ _)).
      by apply (attr_stmts_raise attrs k).
    + intros g. unfold begin_subgraph.
      rewrite (bind_ok _ _ _ _ _ (write_run _ _)).
      destruct (id_cases g (fp ++ py "subgraph ")) as [Hi|Hi];
        [|rewrite (bind_raise _ _ _ _ _ Hi); eauto].
      rewrite (bind_ok _ _ _ _ _ Hi).
      rewrite (bind_ok _ _ _ _ _ (write_run _ _)).
      by apply (attr_stmts_raise attrs k).
  - intros n attrs Hn. unfold node.
    rewrite (bind_ok _ _ _ _ _ (write_run _ _)).
    by rewrite (bind_raise _ _ _ _ _ (id_raise n _ Hn)).
  - intros src dst attrs Hs. unfold edge.
    rewrite (bind_ok _ _ _ _ _ (write_run _ _)).
    by rewrite (bind_raise _ _ _ _ _ (id_raise src _ Hs)).
  - intros g attrs Hg. unfold begin_subgraph.
    rewrite (bind_ok _ _ _ _ _ (write_run _ _)).
    by rewrite (bind_raise _ _ _ _ _ (id_raise g _ Hg)).
  - intros A B m k fp' e. apply bind_raise.
Qed.

(** ** Insertion order *)

Lemma sorted_iteritems_items d :
  NoDup d.*1 → sorted_iteritems d ≡ₚ d.
Proof.
  intros Hnd. apply NoDup_Permutation.
  - apply (NoDup_fmap_1 fst). rewrite sorted_iteritems_keys.
    by rewrite merge_sort_Permutation.
  - by apply (NoDup_fmap_1 fst).
  - intros [k v]. split.
    + intros Hin. by apply getitem_elem_of, sorted_iteritems_getitem.
    + intros Hin. by apply elem_of_sorted_iteritems, elem_of_getitem.
Qed.

Lemma attr_list_Permutation d1 d2 fp :
  NoDup d1.*1 → d1 ≡ₚ d2 → attr_list d1 fp = attr_list d2 fp.
Proof.
  intros Hnd Hp. unfold attr_list.
  rewrite (sorted_iteritems_Permutation d1 d2 Hnd Hp).
  destruct d1, d2; try done.
  - by apply Permutation_nil_cons in Hp.
  - symmetry in Hp. by apply Permutation_nil_cons in Hp.
Qed.

Lemma bind_ext {S A B} (m1 m2 : M S A) (k1 k2 : A → M S B) s :
  m1 s = m2 s → (∀ a s', k1 a s' = k2 a s') → bind m1 k1 s = bind m2 k2 s.
Proof.
  intros Hm Hk. unfold bind. rewrite Hm.
  destruct (m2 s) as [s' [a|e]]; [apply Hk|done].
Qed.

(** C6. Two dictionaries that hold the same entries, inserted in whatever
    order, are written alike by every method that takes attributes, byte for
    byte and exception for exception: the entries are visited in the order of
    their keys, each key once, whatever the insertion order was. *)
Theorem insertion_order_irrelevant (attrs1 attrs2 : dict) :
  NoDup attrs1.*1 → attrs1 ≡ₚ attrs2 →
  sorted_iteritems attrs1 = sorted_iteritems attrs2
  ∧ Sorted str_le (sorted_iteritems attrs1).*1
  ∧ sorted_iteritems attrs1 ≡ₚ attrs1
  ∧ (∀ fp, attr_list attrs1 fp = attr_list attrs2 fp)
  ∧ (∀ what fp, attr what attrs1 fp = attr what attrs2 fp)
  ∧ (∀ n fp, node n attrs1 fp = node n attrs2 fp)
  ∧ (∀ src dst fp, edge src dst attrs1 fp = edge src dst attrs2 fp)
  ∧ (∀ fp, begin_graph attrs1 fp = begin_graph attrs2 fp)
  ∧ (∀ g fp, begin_subgraph g attrs1 fp = begin_subgraph g attrs2 fp).
Proof.
  intros Hnd Hp.
  pose proof (sorted_iteritems_Permutation _ _ Hnd Hp) as Hs.
  pose proof (fun fp => attr_list_Permutation _ _ fp Hnd Hp) as Hl.
  split_and!.
  - done.
  - apply sorted_iteritems_Sorted.
  - by apply sorted_iteritems_items.
  - done.
  - intros what fp. unfold attr.
    repeat (apply bind_ext; [first [apply Hl|done]|intros ? ?]). done.
  - intros n fp. unfold node.
    repeat (apply bind_ext; [first [apply Hl|done]|intros ? ?]). done.
  - intros src dst fp. unfold edge.
    repeat (apply bind_ext; [first [apply Hl|done]|intros ? ?]). done.
  - intros fp. unfold begin_graph, attr_stmts. by rewrite Hs.
  - intros g fp. unfold begin_subgraph, attr_stmts. by rewrite Hs.
Qed.

End Claims.

(** ** Name resolution *)

Lemma rpartition_Some sep s a b :
  rpartition sep s = Some (a, b) → s = a ++ sep :: b ∧ sep ∉ b.
Proof.
  revert a b. induction s as [|c s IH]; intros a b; simpl; [done|].
  destruct (rpartition sep s) as [[a' b']|] eqn:E.
  - intros [= <- <-]. destruct (IH a' b' eq_refl) as [-> Hb]. done.
  - destruct (N.eqb_spec c sep) as [->|Hne]; [|done].
    intros [= <- <-]. split; [done|].
    clear IH. induction s as [|d s IH]; [apply not_elem_of_nil|].
    simpl in E. destruct (rpartition sep s) as [[??]|]; [done|].
    destruct (N.eqb_spec d sep) as [->|Hne]; [done|].
    apply not_elem_of_cons. split; [done|by apply IH].
Qed.

Lemma rpartition_None sep s : rpartition sep s = None ↔ sep ∉ s.
Proof.
  induction s as [|c s IH]; simpl.
  - split; [intros _; apply not_elem_of_nil|done].
  - destruct (rpartition sep s) as [[a b]|] eqn:E.
    + split; [done|]. intros Hn. apply not_elem_of_cons in Hn as [_ Hn].
      by apply IH in Hn.
    + destruct (N.eqb_spec c sep) as [->|Hne].
      * split; [done|]. intros Hn. by apply not_elem_of_cons in Hn as [? _].
      * split; [|done]. intros _. apply not_elem_of_cons.
        split; [done|by apply IH].
Qed.

Lemma startswith_slash s :
  startswith s (py "/") = true ↔ ∃ t, s = SLASH :: t.
Proof.
  change (py "/") with [SLASH]. destruct s as [|c s].
  - split; [done|by intros [? ?]].
  - cbn [startswith]. replace (startswith s []) with true by (by destruct s).
    rewrite andb_true_r.
    destruct (N.eqb_spec SLASH c) as [<-|Hne]; split; eauto; try done.
    intros [t [= -> _]]. done.
Qed.

Lemma absolute_slash node_name : ∃ t, absolute node_name = SLASH :: t.
Proof.
  unfold absolute. destruct (startswith node_name (py "/")) eqn:E.
  - by apply startswith_slash.
  - by exists node_name.
Qed.

Lemma absolute_rpartition node_name :
  ∃ ns base, rpartition SLASH (absolute node_name) = Some (ns, base).
Proof.
  destruct (rpartition SLASH (absolute node_name)) as [[ns base]|] eqn:E; eauto.
  apply rpartition_None in E. destruct (absolute_slash node_name) as [t Ht].
  rewrite Ht in E. destruct E. apply list_elem_of_here.
Qed.

Lemma parse_node_name_run node_name g_id ns base :
  rpartition SLASH (absolute node_name) = Some (ns, base) →
  parse_node_name node_name g_id =
    (g_id + 1,
     Ok {| name := base;
           namespace := if decide (ns = []) then py "/" else ns;
           full_name := absolute node_name;
           id := py "node_" ++ str_int (g_id + 1) |}).
Proof.
  intros E. unfold parse_node_name.
  replace (if negb (startswith node_name (py "/"))
           then py "/" ++ node_name else node_name)
    with (absolute node_name)
    by (unfold absolute; by destruct (startswith node_name (py "/"))).
  unfold rsplit1. rewrite E. done.
Qed.

(** C5. [parse_node_name] puts a [/] in front of a name that has none, cuts
    the result at its last [/] into namespace and base name, and gives the
    namespace [/] when the cut leaves it empty. So [foo] has namespace [/]
    and base name [foo], [/a/b] has [/a] and [b], and [/a/b/c] has [/a/b]
    and [c]. *)
Theorem parse_node_name_splits_at_last_slash (node_name : str) (g_id : Z) :
  (startswith (absolute node_name) (py "/") = true
   ∧ (startswith node_name (py "/") = true → absolute node_name = node_name)
   ∧ (startswith node_name (py "/") = false →
      absolute node_name = py "/" ++ node_name))
  ∧ (∃ ns base,
       absolute node_name = ns ++ [SLASH] ++ base
       ∧ (SLASH ∉ base)
       ∧ parse_node_name node_name g_id =
           (g_id + 1,
            Ok {| name := base;
                  namespace := if decide (ns = []) then py "/" else ns;
                  full_name := absolute node_name;
                  id := py "node_" ++ str_int (g_id + 1) |}))
  ∧ parse_node_name (py "foo") g_id =
      (g_id + 1, Ok {| name := py "foo"; namespace := py "/";
                       full_name := py "/foo";
                       id := py "node_" ++ str_int (g_id + 1) |})
  ∧ parse_node_name (py "/a/b") g_id =
      (g_id + 1, Ok {| name := py "b"; namespace := py "/a";
                       full_name := py "/a/b";
                       id := py "node_" ++ str_int (g_id + 1) |})
  ∧ parse_node_name (py "/a/b/c") g_id =
      (g_id + 1, Ok {| name := py "c"; namespace := py "/a/b";
                       full_name := py "/a/b/c";
                       id := py "node_" ++ str_int (g_id + 1) |}).
Proof.
  split_and!; try done.
  - apply startswith_slash, absolute_slash.
  - unfold absolute. by intros ->.
  - unfold absolute. by intros ->.
  - destruct (absolute_rpartition node_name) as (ns & base & E).
    exists ns, base. destruct (rpartition_Some _ _ _ _ E) as [Heq Hb].
    split_and!; [done|done|by apply parse_node_name_run].
Qed.

(** C9. Unpacking the two pieces fails (with [ValueError], the
    specification's [MalformedNameError]) exactly when the string that was
    split contains no [/]. The absolute form always contains one, so
    [parse_node_name] returns a [NodeName] for every string. *)
Theorem parse_node_name_total :
  (∀ (s : str) (g_id : Z),
     (∃ e, unpack2 (rsplit1 SLASH s) g_id = (g_id, Raise e)) ↔ SLASH ∉ s)
  ∧ (∀ (s : str) (g_id : Z) g' e,
       unpack2 (rsplit1 SLASH s) g_id = (g', Raise e) → e = ValueError)
  ∧ (∀ node_name, SLASH ∈ absolute node_name)
  ∧ (∀ node_name (g_id : Z),
       ∃ n, parse_node_name node_name g_id = (g_id + 1, Ok n)).
Proof.
  split_and!.
  - intros s g_id. rewrite <- rpartition_None. unfold rsplit1.
    destruct (rpartition SLASH s) as [[a b]|]; split; try done.
    + by intros [e ?].
    + intros _. by exists ValueError.
  - intros s g_id g' e. unfold rsplit1.
    destruct (rpartition SLASH s) as [[a b]|]; [done|]. by intros [= _ <-].
  - intros node_name. destruct (absolute_slash node_name) as [t ->].
    apply list_elem_of_here.
  - intros node_name g_id.
    destruct (absolute_rpartition node_name) as (ns & base & E).
    eexists. by apply parse_node_name_run.
Qed.

(** ** The identifier counter *)

Lemma fresh_ids_app g n m :
  fresh_ids g (n + m) = fresh_ids g n ++ fresh_ids (g + Z.of_nat n) m.
Proof.
  revert g. induction n as [|n IH]; intros g.
  - simpl. by rewrite Z.add_0_r.
  - cbn [fresh_ids Nat.add app]. rewrite IH. do 3 f_equal. lia.
Qed.

Lemma elem_of_fresh_ids g n x :
  x ∈ fresh_ids g n →
  ∃ i, g < i ≤ g + Z.of_nat n ∧ x = py "node_" ++ str_int i.
Proof.
  revert g. induction n as [|n IH]; intros g; cbn [fresh_ids].
  - intros Hin. by apply elem_of_nil in Hin.
  - intros [->|Hin]%elem_of_cons.
    + exists (g + 1). split; [lia|done].
    + destruct (IH _ Hin) as (i & Hi & ->). exists i. split; [lia|done].
Qed.

Lemma node_id_inj z1 z2 :
  py "node_" ++ str_int z1 = py "node_" ++ str_int z2 → z1 = z2.
Proof. by intros Heq%app_inv_head%str_int_inj. Qed.

Lemma NoDup_fresh_ids g n : NoDup (fresh_ids g n).
Proof.
  revert g. induction n as [|n IH]; intros g; cbn [fresh_ids].
  - apply NoDup_nil_2.
  - apply NoDup_cons. split; [|apply IH].
    intros (i & Hi & Heq)%elem_of_fresh_ids.
    apply app_inv_head, str_int_inj in Heq. lia.
Qed.

Section Counter.
Context `{PyRuntime}.

Lemma get_node_names_run l h g :
  ∃ ns, get_node_names l h g = (g + Z.of_nat (length ns), Ok ns)
        ∧ id <$> ns = fresh_ids g (length ns).
Proof.
  revert g. induction l as [|t l IH]; intros g; cbn [get_node_names].
  - exists []. split; [|done]. unfold ret. f_equal. simpl. lia.
  - destruct (h || negb (bool_decide (t.1 = []))
                   && negb (startswith t.1 HIDDEN_NODE_PREFIX)); [|apply IH].
    destruct (IH (g + 1)) as (ns & Hrun & Hids).
    eexists (_ :: ns). split.
    + unfold bind at 1, get_id. unfold bind at 1. rewrite Hrun.
      unfold ret. f_equal. cbn [length]. lia.
    + cbn [fmap list_fmap length fresh_ids id]. f_equal. exact Hids.
Qed.

Lemma run_calls_run calls g :
  ∃ ns, run_calls calls g = (g + Z.of_nat (length ns), Ok ns)
        ∧ id <$> ns = fresh_ids g (length ns).
Proof.
  revert g. induction calls as [|[node_name|l h] calls IH]; intros g;
    cbn [run_calls].
  - exists []. split; [|done]. unfold ret. f_equal. simpl. lia.
  - destruct (absolute_rpartition node_name) as (nsp & base & E).
    rewrite (bind_ok _ _ _ _ _ (parse_node_name_run node_name g _ _ E)).
    destruct (IH (g + 1)) as (ns & Hrun & Hids).
    rewrite (bind_ok _ _ _ _ _ Hrun). eexists (_ :: ns). split.
    + unfold ret. f_equal. cbn [length]. lia.
    + cbn [fmap list_fmap length fresh_ids id]. f_equal. exact Hids.
  - destruct (get_node_names_run l h g) as (ns1 & Hrun1 & Hids1).
    rewrite (bind_ok _ _ _ _ _ Hrun1).
    destruct (IH (g + Z.of_nat (length ns1))) as (ns2 & Hrun2 & Hids2).
    rewrite (bind_ok _ _ _ _ _ Hrun2). exists (ns1 ++ ns2). split.
    + unfold ret. f_equal. rewrite length_app. lia.
    + by rewrite fmap_app, length_app, fresh_ids_app, Hids1, Hids2.
Qed.

(** C8. [get_id] adds one to the counter and returns the prefix followed by
    the new value; nothing else changes the counter. Every call of
    [parse_node_name], whatever its argument, takes its identifier from
    [get_id "node_"]. Hence, in any sequence of calls that allocate
    identities, started from any counter value, the counter only grows and
    the identifiers handed out are pairwise distinct; two calls for the same
    name give two different identifiers. *)
Theorem identifiers_are_fresh :
  (∀ s g, get_id s g = (g + 1, Ok (s ++ str_int (g + 1))))
  ∧ (∀ node_name g,
       ∃ n, parse_node_name node_name g = (g + 1, Ok n)
            ∧ id n = py "node_" ++ str_int (g + 1))
  ∧ (∀ node_name g g1 g2 n1 n2,
       parse_node_name node_name g = (g1, Ok n1) →
       parse_node_name node_name g1 = (g2, Ok n2) →
       g < g1 < g2 ∧ id n1 ≠ id n2)
  ∧ (∀ calls g,
       ∃ ns, run_calls calls g = (g + Z.of_nat (length ns), Ok ns)
             ∧ id <$> ns = fresh_ids g (length ns)
             ∧ NoDup (id <$> ns))
  ∧ (∀ z1 z2, str_int z1 = str_int z2 → z1 = z2).
Proof.
  split_and!.
  - done.
  - intros node_name g.
    destruct (absolute_rpartition node_name) as (ns & base & E).
    eexists. split; [by apply parse_node_name_run|done].
  - intros node_name g g1 g2 n1 n2.
    destruct (absolute_rpartition node_name) as (ns & base & E).
    rewrite !(parse_node_name_run node_name _ _ _ E).
    intros [= <- <-] [= <- <-]. split; [lia|]. intros Heq.
    assert (g + 1 = g + 1 + 1) by (apply node_id_inj; exact Heq). lia.
  - intros calls g. destruct (run_calls_run calls g) as (ns & Hrun & Hids).
    exists ns. split_and!; [done|done|]. rewrite Hids. apply NoDup_fresh_ids.
  - apply str_int_inj.
Qed.

End Counter.

(** ** Rounding of binary64 operations

    The standard model of a rounded operation, on the specification of
    [PrimFloat]: rounding to nearest adds at most one unit in the last
    place, that is at most [2^-52] of the exact value, or [2^-1074] in the
    subnormal range. *)

(** A positive number has as many binary digits as [digits2_pos] says. *)
Lemma digits2_pos_bounds p :
  2 ^ (Z.pos (digits2_pos p) - 1) ≤ Z.pos p < 2 ^ Z.pos (digits2_pos p).
Proof.
  induction p as [p IH|p IH|]; cbn [digits2_pos].
  - rewrite Pos2Z.inj_succ.
    replace (Z.succ (Z.pos (digits2_pos p)) - 1)
      with (Z.pos (digits2_pos p) - 1 + 1) by lia.
    rewrite Z.pow_succ_r by lia. rewrite Z.pow_add_r by lia. lia.
  - rewrite Pos2Z.inj_succ.
    replace (Z.succ (Z.pos (digits2_pos p)) - 1)
      with (Z.pos (digits2_pos p) - 1 + 1) by lia.
    rewrite Z.pow_succ_r by lia. rewrite Z.pow_add_r by lia. lia.
  - simpl. lia.
Qed.

(** Shifting the mantissa right is division by a power of two. *)
Lemma shr_1_m r : 0 ≤ shr_m r → shr_m (shr_1 r) = shr_m r / 2.
Proof.
  destruct r as [m rb sb]. cbn [shr_m]. intros Hm.
  destruct m as [|[p|p|]|p]; cbn [shr_1 shr_m]; try lia; try done.
  - apply Z.div_unique with (r := 1); lia.
  - apply Z.div_unique with (r := 0); lia.
Qed.

Lemma iter_pos_shr_1 p r :
  0 ≤ shr_m r → shr_m (SpecFloat.iter_pos shr_1 p r) = shr_m r / 2 ^ Z.pos p.
Proof.
  revert r. induction p as [p IH|p IH|]; intros r Hr; cbn [SpecFloat.iter_pos].
  - assert (0 ≤ shr_m (shr_1 r)) as H1 by (rewrite shr_1_m by done; apply Z.div_pos; lia).
    assert (0 < 2 ^ Z.pos p) as Hp by (apply Z.pow_pos_nonneg; lia).
    assert (0 ≤ shr_m (SpecFloat.iter_pos shr_1 p (shr_1 r))) as H2
      by (rewrite IH by done; apply Z.div_pos; lia).
    rewrite IH by done. rewrite IH by done. rewrite shr_1_m by done.
    rewrite !Z.div_div by lia. f_equal.
    replace (Z.pos p~1) with (1 + Z.pos p + Z.pos p) by lia.
    rewrite !Z.pow_add_r by lia. lia.
  - assert (0 < 2 ^ Z.pos p) as Hp by (apply Z.pow_pos_nonneg; lia).
    assert (0 ≤ shr_m (SpecFloat.iter_pos shr_1 p r)) as H2
      by (rewrite IH by done; apply Z.div_pos; lia).
    rewrite IH by done. rewrite IH by done.
    rewrite !Z.div_div by lia. f_equal.
    replace (Z.pos p~0) with (Z.pos p + Z.pos p) by lia.
    rewrite !Z.pow_add_r by lia. lia.
  - by apply shr_1_m.
Qed.

Lemma shr_spec r e n :
  0 ≤ shr_m r →
  shr_m (shr r e n).1 = shr_m r / 2 ^ Z.max 0 n ∧ (shr r e n).2 = e + Z.max 0 n.
Proof.
  intros Hr. destruct n as [|p|p]; cbn [shr fst snd].
  - rewrite Z.max_l by lia. rewrite Z.pow_0_r, Z.div_1_r. lia.
  - rewrite Z.max_r by lia. split; [by apply iter_pos_shr_1|done].
  - rewrite Z.max_l by lia. rewrite Z.pow_0_r, Z.div_1_r. lia.
Qed.

Lemma round_nearest_even_bounds m l :
  m ≤ round_nearest_even m l ≤ m + 1.
Proof.
  destruct l as [|[]]; cbn [round_nearest_even]; try lia.
  destruct (Z.even m); lia.
Qed.

Section Rounding.
Variable K : Z.
Hypothesis HK : 1119 ≤ K.

Lemma fexp_eq x : fexp prec emax x = Z.max (x - 53) (-1074).
Proof. reflexivity. Qed.

(** The error model for a positive exact value [mx * 2^ex]: the rounded
    result is zero, or a mantissa and exponent whose value exceeds the exact
    one by at most its [2^-52]th part plus [2^-1074]; it is returned as a
    finite float unless the exponent overflows. *)
Lemma binary_round_aux_bound mx ex :
  - K ≤ ex →
  binary_round_aux prec emax false (Z.pos mx) ex loc_Exact = S754_zero false
  ∨ ∃ m e,
      ex ≤ e
      ∧ 2 ^ 52 * val K (Z.pos m) e
        ≤ (2 ^ 52 + 1) * val K (Z.pos mx) ex + 2 ^ 52 * 2 ^ (K - 1074)
      ∧ binary_round_aux prec emax false (Z.pos mx) ex loc_Exact
        = if e <=? emax - prec then S754_finite false m e
          else S754_infinity false.
Proof.
  intros Hex. unfold binary_round_aux, shr_fexp.
  cbn [Zdigits2 shr_record_of_loc].
  set (d := Z.pos (digits2_pos mx)).
  set (n := fexp prec emax (d + ex) - ex).
  set (r0 := {| shr_m := Z.pos mx; shr_r := false; shr_s := false |}).
  pose proof (shr_spec r0 ex n) as Hs1.
  destruct (shr r0 ex n) as [mrs' e'] eqn:E1. cbn [fst snd] in Hs1.
  destruct Hs1 as [Hm1 He1]; [cbn; lia|]. cbn [shr_m r0] in Hm1.
  set (m2 := round_nearest_even (shr_m mrs') (loc_of_shr_record mrs')).
  set (k := Z.max 0 n) in *.
  assert (0 < 2 ^ k) as Hk by (apply Z.pow_pos_nonneg; lia).
  assert (0 ≤ shr_m mrs') as Hm1pos by (rewrite Hm1; apply Z.div_pos; lia).
  assert (shr_m mrs' * 2 ^ k ≤ Z.pos mx) as Hm1le
    by (rewrite Hm1, Z.mul_comm; apply Z.mul_div_le; lia).
  assert (shr_m mrs' ≤ m2 ≤ shr_m mrs' + (if decide (n ≤ 0) then 0 else 1))
    as Hm2.
  { case_decide as Hn.
    - assert (mrs' = r0) as -> by (destruct n; cbn in E1; congruence || lia).
      cbn. lia.
    - apply round_nearest_even_bounds. }
  set (n2 := fexp prec emax (Zdigits2 m2 + e') - e').
  pose proof (shr_spec {| shr_m := m2; shr_r := false; shr_s := false |} e' n2)
    as Hs2.
  cbn [shr_m] in Hs2.
  destruct (shr {| shr_m := m2; shr_r := false; shr_s := false |} e' n2)
    as [mrs'' e''] eqn:E2. cbn [fst snd] in Hs2.
  destruct Hs2 as [Hm3 He2]; [lia|].
  set (k2 := Z.max 0 n2) in *.
  assert (0 < 2 ^ k2) as Hk2 by (apply Z.pow_pos_nonneg; lia).
  assert (0 ≤ shr_m mrs'') as Hm3pos by (rewrite Hm3; apply Z.div_pos; lia).
  assert (shr_m mrs'' * 2 ^ k2 ≤ m2) as Hm3le
    by (rewrite Hm3, Z.mul_comm; apply Z.mul_div_le; lia).
  destruct (shr_m mrs'') as [|m3|m3] eqn:E3; [by left| |lia].
  right. exists m3, e''. split_and!; [lia| |done].
  unfold val. subst e'' e'.
  replace (ex + k + k2 + K) with (k2 + (k + (ex + K))) by lia.
  rewrite !Z.pow_add_r by lia.
  set (A := 2 ^ (ex + K)). assert (0 < A) as HA by (apply Z.pow_pos_nonneg; lia).
  set (B := 2 ^ k) in *. set (C := 2 ^ k2) in *.
  set (T := 2 ^ (K - 1074)). assert (0 < T) as HT by (apply Z.pow_pos_nonneg; lia).
  (* what rounding may add: one unit in the last place at most *)
  assert (2 ^ 52 * ((if decide (n ≤ 0) then 0 else 1) * B * A)
          ≤ Z.pos mx * A + 2 ^ 52 * T) as Herr.
  { case_decide as Hn; [nia|].
    subst B k. rewrite Z.max_r by lia. subst n. rewrite fexp_eq in Hn |- *.
    pose proof (digits2_pos_bounds mx) as Hd. fold d in Hd.
    destruct (Z.max_spec (d + ex - 53) (-1074)) as [[Hlt ->]|[Hge ->]].
    - assert (2 ^ (-1074 - ex) * A = T) as HTA.
      { subst T A. rewrite <- Z.pow_add_r by lia. f_equal. lia. }
      assert (0 ≤ Z.pos mx * A) by lia. lia.
    - replace (d + ex - 53 - ex) with (d - 53) by lia.
      assert (2 ^ 52 * 2 ^ (d - 53) = 2 ^ (d - 1)) as Hp.
      { rewrite <- Z.pow_add_r by lia. f_equal. lia. }
      assert (2 ^ 52 * 2 ^ (d - 53) * A ≤ Z.pos mx * A) as Hle
        by (apply Z.mul_le_mono_nonneg_r; lia).
      lia. }
  assert (Z.pos m3 * C * B * A ≤ m2 * B * A) as H1 by nia.
  assert (m2 * B * A
          ≤ (shr_m mrs' + (if decide (n ≤ 0) then 0 else 1)) * B * A) as H2
    by (destruct Hm2; nia).
  assert (shr_m mrs' * B * A ≤ Z.pos mx * A) as H3 by nia.
  nia.
Qed.

(** Aligning to a smaller exponent keeps the value. *)
Lemma shl_align_spec mx ex ez :
  (shl_align mx ex ez).2 = Z.min ex ez
  ∧ Z.pos (shl_align mx ex ez).1 = Z.pos mx * 2 ^ (ex - Z.min ex ez).
Proof.
  unfold shl_align. destruct (ez - ex) as [|p|p] eqn:E; cbn [fst snd].
  - rewrite Z.min_l by lia. rewrite Z.sub_diag. lia.
  - rewrite Z.min_l by lia. rewrite Z.sub_diag. lia.
  - rewrite Z.min_r by lia. split; [done|].
    replace (ex - ez) with (Z.pos p) by lia.
    change (Pos.iter xO mx p) with (shift_pos p mx).
    rewrite shift_pos_correct. rewrite Z.mul_comm. done.
Qed.

Lemma val_shl_align mx ex ez :
  - K ≤ Z.min ex ez →
  val K (Z.pos (shl_align mx ex ez).1) (shl_align mx ex ez).2 = val K (Z.pos mx) ex.
Proof.
  intros Hk. destruct (shl_align_spec mx ex ez) as [-> ->]. unfold val.
  rewrite <- Z.mul_assoc, <- Z.pow_add_r by lia. do 2 f_equal. lia.
Qed.

(** Rounding a positive number given by any mantissa and exponent. *)
Lemma binary_round_bound mx ex :
  - K ≤ ex →
  binary_round prec emax false mx ex = S754_zero false
  ∨ ∃ m e,
      - K ≤ e
      ∧ 2 ^ 52 * val K (Z.pos m) e
        ≤ (2 ^ 52 + 1) * val K (Z.pos mx) ex + 2 ^ 52 * 2 ^ (K - 1074)
      ∧ binary_round prec emax false mx ex
        = if e <=? emax - prec then S754_finite false m e
          else S754_infinity false.
Proof.
  intros Hex. unfold binary_round.
  set (t := fexp prec emax (Z.pos (digits2_pos mx) + ex)).
  assert (-1074 ≤ t) as Ht by (subst t; rewrite fexp_eq; lia).
  pose proof (val_shl_align mx ex t) as Hv.
  pose proof (shl_align_spec mx ex t) as [He _].
  destruct (shl_align mx ex t) as [mz ez]. cbn [fst snd] in *.
  destruct (binary_round_aux_bound mz ez) as [Hz|(m & e & Hle & Hb & Hr)];
    [lia|by left|].
  right. exists m, e. rewrite Hv in Hb by lia. split_and!; [lia|done|done].
Qed.

(** A positive number below [2 ^ 9] has an exponent far from overflow. *)
Lemma small_exponent m e c :
  - K ≤ e → val K (Z.pos m) e ≤ c * 2 ^ K → c < 2 ^ 9 →
  (e <=? emax - prec) = true.
Proof.
  intros He Hv Hc. apply Z.leb_le. change (emax - prec) with 971.
  destruct (Z.le_gt_cases e 971) as [|Hgt]; [done|exfalso].
  unfold val in Hv.
  assert (2 ^ (9 + K) ≤ 2 ^ (e + K)) as Hp by (apply Z.pow_le_mono_r; lia).
  rewrite Z.pow_add_r in Hp by lia.
  assert (0 < 2 ^ K) as H2K by (apply Z.pow_pos_nonneg; lia).
  assert (2 ^ 9 * 2 ^ K ≤ Z.pos m * 2 ^ (e + K)) as H1.
  { eapply Z.le_trans; [exact Hp|]. assert (0 < 2 ^ (e + K)) by
      (apply Z.pow_pos_nonneg; lia). nia. }
  nia.
Qed.

End Rounding.

(** A float that is neither [<= 0.0] nor [>= 1.0] is a NaN or a positive
    float below one. *)
Lemma unit_interval_float f :
  PrimFloat.leb f 0 = false → PrimFloat.leb 1 f = false →
  Prim2SF f = S754_nan
  ∨ ∃ mf ef, Prim2SF f = S754_finite false mf ef
             ∧ -1074 ≤ ef ≤ -53 ∧ Z.pos mf < 2 ^ 53.
Proof.
  rewrite !leb_spec. pose proof (Prim2SF_valid f) as Hv.
  assert (Prim2SF 0 = S754_zero false) as -> by (vm_compute; reflexivity).
  assert (Prim2SF 1 = S754_finite false 4503599627370496 (-52)) as ->
    by (vm_compute; reflexivity).
  destruct (Prim2SF f) as [s|s| |s mf ef].
  - destruct s; discriminate.
  - destruct s; discriminate.
  - intros _ _. left. reflexivity.
  - destruct s; [discriminate|]. intros _ Hone. right. exists mf, ef.
    split; [reflexivity|]. cbn [valid_binary] in Hv.
    unfold bounded, canonical_mantissa in Hv.
    apply andb_prop in Hv as [Hc _]. apply Z.eqb_eq in Hc. rewrite fexp_eq in Hc.
    pose proof (digits2_pos_bounds mf) as Hd.
    set (d := Z.pos (digits2_pos mf)) in *.
    assert (d ≤ 53 ∧ -1074 ≤ ef) as [Hd53 Hef] by lia.
    assert (Z.pos mf < 2 ^ 53) as Hmf.
    { eapply Z.lt_le_trans; [apply Hd|]. apply Z.pow_le_mono_r; lia. }
    split; [|exact Hmf]. split; [exact Hef|].
    unfold SFleb, SFcompare in Hone.
    destruct (Z.compare_spec (-52) ef) as [Heq|Hlt|Hgt];
      [|discriminate Hone|lia].
    subst ef. exfalso.
    assert (d = 53) as Hd' by lia. rewrite Hd' in Hd.
    change (Pos.compare_cont Eq 4503599627370496 mf)
      with (Pos.compare 4503599627370496 mf) in Hone.
    destruct (Pos.compare_spec 4503599627370496 mf) as [Hc'|Hc'|Hc'];
      try discriminate Hone.
    change (2 ^ (53 - 1)) with 4503599627370496 in Hd.
    apply Pos2Z.pos_lt_pos in Hc'. clear -Hd Hc'. destruct Hd as [Hd _].
    exact (Z.lt_irrefl _ (Z.lt_le_trans _ _ _ Hc' Hd)).
Qed.

Lemma pow2_split (K a : Z) : 0 ≤ a ≤ K → 2 ^ K = 2 ^ a * 2 ^ (K - a).
Proof. intros Ha. rewrite <- Z.pow_add_r by lia. f_equal. lia. Qed.

(** The truncation of a positive float below 256. *)
Lemma int_of_finite_range K m e :
  0 ≤ K → - K ≤ e → val K (Z.pos m) e < 256 * 2 ^ K →
  0 ≤ match e with
      | 0 => Z.pos m
      | Z.pos p => Z.pos m * 2 ^ Z.pos p
      | Z.neg p => Z.pos m / 2 ^ Z.pos p
      end ≤ 255.
Proof.
  intros HK He Hv. unfold val in Hv.
  destruct e as [|p|p].
  - rewrite Z.add_0_l in Hv.
    assert (0 < 2 ^ K) by (apply Z.pow_pos_nonneg; lia). nia.
  - rewrite Z.pow_add_r in Hv by lia.
    assert (0 < 2 ^ K) by (apply Z.pow_pos_nonneg; lia).
    assert (0 < 2 ^ Z.pos p) by (apply Z.pow_pos_nonneg; lia). nia.
  - assert (0 < 2 ^ Z.pos p) as Hp by (apply Z.pow_pos_nonneg; lia).
    split; [apply Z.div_pos; lia|].
    pose proof (Z.mul_div_le (Z.pos m) (2 ^ Z.pos p) Hp) as Hdiv.
    rewrite (pow2_split K (Z.pos p)) in Hv by lia.
    replace (Z.neg p + K) with (K - Z.pos p) in Hv by lia.
    assert (0 < 2 ^ (K - Z.pos p)) by (apply Z.pow_pos_nonneg; lia).
    set (q := Z.pos m / 2 ^ Z.pos p) in *.
    set (A := 2 ^ (K - Z.pos p)) in *. set (B := 2 ^ Z.pos p) in *.
    destruct (Z.le_gt_cases q 255) as [|Hq]; [done|exfalso].
    assert (0 < B * A) as HBA by (apply Z.mul_pos_pos; lia).
    assert (256 * (B * A) ≤ q * (B * A)) as H1
      by (apply Z.mul_le_mono_nonneg_r; lia).
    assert (B * q * A ≤ Z.pos m * A) as H2
      by (apply Z.mul_le_mono_nonneg_r; lia).
    lia.
Qed.

Section Scaled.
Variable K : Z.
Hypothesis HK : 1119 ≤ K.

Lemma val_add m1 m2 e : val K (m1 + m2) e = val K m1 e + val K m2 e.
Proof. unfold val. lia. Qed.

(** [255.0 * f + 0.5] for a positive [f] below one, operation by
    operation: the product stays below [255 + 2^-43], the sum below 256. *)
Lemma scaled_channel_range_K mf ef :
  -1074 ≤ ef ≤ -53 → Z.pos mf < 2 ^ 53 →
  ∃ n, DotWriter.trunc_spec_float
         (SF64add (SF64mul (S754_finite false 8972014882652160 (-45))
                           (S754_finite false mf ef))
                  (S754_finite false 4503599627370496 (-53))) = Ok n
       ∧ 0 ≤ n ≤ 255.
Proof.
  intros Hef Hmf. unfold SF64mul. cbn [SFmul xorb].
  set (U := 2 ^ (K - 53)).
  assert (0 < U) as HU by (apply Z.pow_pos_nonneg; lia).
  assert (2 ^ K = 2 ^ 53 * U) as HKU by (apply pow2_split; lia).
  assert (2 ^ (-53 + K) = U) as HhU by (unfold U; f_equal; lia).
  assert (2 ^ (K - 1074) ≤ U) as HT by (apply Z.pow_le_mono_r; lia).
  assert (0 < 2 ^ (K - 1074)) as HT0 by (apply Z.pow_pos_nonneg; lia).
  assert (val K (Z.pos (8972014882652160 * mf)) (-45 + ef)
          ≤ 255 * 2 ^ 53 * U) as HX.
  { unfold val. rewrite Pos2Z.inj_mul.
    change (Z.pos 8972014882652160) with (255 * 2 ^ 45).
    replace (255 * 2 ^ 45 * Z.pos mf * 2 ^ (-45 + ef + K))
      with (255 * (Z.pos mf * (2 ^ 45 * 2 ^ (-45 + ef + K)))) by lia.
    rewrite <- Z.pow_add_r by lia.
    replace (45 + (-45 + ef + K)) with (ef + K) by lia.
    assert (2 ^ (ef + K) ≤ U) as HW by (apply Z.pow_le_mono_r; lia).
    assert (0 < 2 ^ (ef + K)) as HW0 by (apply Z.pow_pos_nonneg; lia).
    assert (Z.pos mf * 2 ^ (ef + K) ≤ 2 ^ 53 * U) by nia.
    lia. }
  destruct (binary_round_aux_bound K HK (8972014882652160 * mf) (-45 + ef))
    as [->|(mP & eP & HeP & HbP & ->)]; [lia| |].
  { (* the product rounds to zero *)
    exists 0. split; [vm_compute; reflexivity|lia]. }
  assert (val K (Z.pos mP) eP ≤ (255 * 2 ^ 53 + 511) * U) as HvP.
  { set (vP := val K (Z.pos mP) eP) in *.
    set (X := val K (Z.pos (8972014882652160 * mf)) (-45 + ef)) in *.
    set (T := 2 ^ (K - 1074)) in *.
    clearbody vP X T U. clear -HbP HX HT HT0 HU. lia. }
  rewrite (small_exponent K HK mP eP 256); [|lia| |lia].
  2:{ rewrite HKU. set (vP := val K (Z.pos mP) eP) in *. clearbody vP U.
      clear -HvP HU. lia. }
  unfold SF64add. cbn [SFadd cond_Zopp].
  set (ez := Z.min eP (-53)).
  destruct (shl_align_spec mP eP ez) as [_ Ha].
  destruct (shl_align_spec 4503599627370496 (-53) ez) as [_ Hb].
  set (a := (shl_align mP eP ez).1) in *.
  set (b := (shl_align 4503599627370496 (-53) ez).1) in *.
  change (Z.pos a + Z.pos b) with (Z.pos (a + b)).
  cbn [binary_normalize].
  destruct (binary_round_bound K HK (a + b) ez)
    as [->|(mS & eS & HeS & HbS & ->)]; [lia| |].
  { exists 0. split; [done|lia]. }
  (* the exact sum is the rounded product plus one half *)
  assert (val K (Z.pos (a + b)) ez
          = val K (Z.pos mP) eP + val K 4503599627370496 (-53)) as Hsum.
  { rewrite Pos2Z.inj_add, val_add, Ha, Hb. unfold val.
    replace (Z.min eP ez) with ez by lia.
    replace (Z.min (-53) ez) with ez by lia.
    rewrite <- !Z.mul_assoc, <- !Z.pow_add_r by lia.
    do 2 f_equal; f_equal; lia. }
  rewrite Hsum in HbS. clear Hsum Ha Hb.
  assert (val K 4503599627370496 (-53) = 2 ^ 52 * U) as Hhalf
    by (unfold val; by rewrite HhU).
  rewrite Hhalf in HbS.
  assert (val K (Z.pos mS) eS < 256 * 2 ^ K) as HvS.
  { rewrite HKU.
    set (vS := val K (Z.pos mS) eS) in *.
    set (vP := val K (Z.pos mP) eP) in *.
    set (T := 2 ^ (K - 1074)) in *.
    clearbody vS vP T U. clear -HvP HbS HT HT0 HU. lia. }
  rewrite (small_exponent K HK mS eS 256); [|lia|lia|lia].
  eexists. split; [reflexivity|].
  apply (int_of_finite_range K); [lia|done|done].
Qed.

End Scaled.

(** [int(255.0*f + 0.5)] for a float that is neither [<= 0.0] nor
    [>= 1.0]: a channel between 0 and 255, unless [f] is a NaN. *)
Lemma scaled_channel_range f :
  PrimFloat.leb f 0 = false → PrimFloat.leb 1 f = false →
  (Prim2SF f = S754_nan
   ∧ DotWriter.int_of_float (255 * f + 0.5) = Raise ValueError)
  ∨ ∃ n, DotWriter.int_of_float (255 * f + 0.5) = Ok n ∧ 0 ≤ n ≤ 255.
Proof.
  intros H0 H1. unfold DotWriter.int_of_float. rewrite add_spec, mul_spec.
  assert (Prim2SF 255 = S754_finite false 8972014882652160 (-45)) as ->
    by (vm_compute; reflexivity).
  assert (Prim2SF 0.5 = S754_finite false 4503599627370496 (-53)) as ->
    by (vm_compute; reflexivity).
  destruct (unit_interval_float f H0 H1) as [->|(mf & ef & -> & Hef & Hmf)].
  { left. split; reflexivity. }
  right.
  destruct (scaled_channel_range_K 1200 ltac:(lia) mf ef Hef Hmf)
    as (n & Hn & Hrange).
  exists n. split; [exact Hn|exact Hrange].
Qed.

(** ** Colours *)

Lemma format_02x_channel n :
  0 ≤ n ≤ 255 →
  DotWriter.format_02x n = [hex_digit (n / 16); hex_digit (n mod 16)].
Proof.
  intros Hn.
  assert (forallb (fun n => bool_decide
            (DotWriter.format_02x n = [hex_digit (n / 16); hex_digit (n mod 16)]))
            (seqZ 0 256) = true) as Hall by (vm_compute; reflexivity).
  rewrite forallb_forall in Hall.
  eapply bool_decide_eq_true_1, (Hall n), list_elem_of_In, elem_of_seqZ. lia.
Qed.

Lemma hex_digit_lowercase d :
  0 ≤ d < 16 →
  (48 ≤ hex_digit d ≤ 57 ∨ 97 ≤ hex_digit d ≤ 102)%N.
Proof. unfold hex_digit. intros Hd. destruct (Z.ltb_spec d 10); lia. Qed.

Lemma nan_not_leb f x :
  Prim2SF f = S754_nan →
  PrimFloat.leb f x = false ∧ PrimFloat.leb x f = false.
Proof.
  intros Hnan. rewrite !leb_spec, Hnan. unfold SFleb, SFcompare.
  by destruct (Prim2SF x).
Qed.

(** A channel is an integer between 0 and 255, for every component but a
    NaN, for which [int] raises. *)
Lemma float2int_cases c :
  (is_nan c = true ∧ DotWriter.float2int c = Raise ValueError)
  ∨ (is_nan c = false ∧ ∃ n, DotWriter.float2int c = Ok n ∧ 0 ≤ n ≤ 255).
Proof.
  destruct c as [z|f]; unfold DotWriter.float2int;
    cbn [is_nan DotWriter.le_zero DotWriter.ge_one DotWriter.to_float].
  - right. split; [done|].
    destruct (Z.leb_spec z 0); [exists 0; split; [done|lia]|].
    destruct (Z.leb_spec 1 z); [exists 255; split; [done|lia]|lia].
  - destruct (Prim2SF f) eqn:Hf.
    4:{ right. split; [done|].
        destruct (PrimFloat.leb f 0) eqn:H0; [exists 0; split; [done|lia]|].
        destruct (PrimFloat.leb 1 f) eqn:H1; [exists 255; split; [done|lia]|].
        destruct (scaled_channel_range f H0 H1) as [[Hnan _]|Hn];
          [congruence|done]. }
    3:{ left. split; [done|].
        destruct (nan_not_leb f 0 Hf) as [-> _].
        destruct (nan_not_leb f 1 Hf) as [_ ->].
        unfold DotWriter.int_of_float. by rewrite add_spec, mul_spec, Hf. }
    all: right; split; [done|].
    all: destruct (PrimFloat.leb f 0) eqn:H0; [exists 0; split; [done|lia]|].
    all: destruct (PrimFloat.leb 1 f) eqn:H1; [exists 255; split; [done|lia]|].
    all: destruct (scaled_channel_range f H0 H1) as [[Hnan _]|Hn];
      [congruence|done].
Qed.

Lemma color_run r g b cr cg cb :
  DotWriter.float2int r = Ok cr →
  DotWriter.float2int g = Ok cg →
  DotWriter.float2int b = Ok cb →
  DotWriter.color (r, g, b)
  = Ok (py "#" ++ DotWriter.format_02x cr ++ DotWriter.format_02x cg
               ++ DotWriter.format_02x cb).
Proof.
  intros Hr Hg Hb. unfold DotWriter.color. cbn [DotWriter.comprehension].
  rewrite Hr, Hg, Hb. cbn [rbind join]. by rewrite !app_nil_l.
Qed.

Lemma color_raise r g b :
  is_nan r || is_nan g || is_nan b = true →
  DotWriter.color (r, g, b) = Raise ValueError.
Proof.
  intros Hnan. unfold DotWriter.color. cbn [DotWriter.comprehension].
  destruct (float2int_cases r) as [[_ ->]|[Hr (cr & -> & _)]]; [done|].
  destruct (float2int_cases g) as [[_ ->]|[Hg (cg & -> & _)]]; [done|].
  destruct (float2int_cases b) as [[_ ->]|[Hb (cb & -> & _)]]; [done|].
  by rewrite Hr, Hg, Hb in Hnan.
Qed.

(** C4. [color] clamps each component before it scales it: a component
    [<= 0.0] gives channel 0, one [>= 1.0] gives 255, and any other gives
    [int(255.0*c + 0.5)], the truncation of the binary64 sum. Every channel
    lies between 0 and 255, and the result is [#] followed by the three
    channels, two lowercase hexadecimal digits each. (The one component with
    no channel is a NaN: [int] raises [ValueError] for it.) In particular
    [(0,0,0)] gives [#000000], [(1,1,1)] gives [#ffffff] and [(-1,2,0.5)]
    gives [#00ff80]. *)
Theorem color_clamps_then_scales :
  (∀ c, DotWriter.le_zero c = true → DotWriter.float2int c = Ok 0)
  ∧ (∀ c, DotWriter.le_zero c = false → DotWriter.ge_one c = true →
          DotWriter.float2int c = Ok 255)
  ∧ (∀ c, DotWriter.le_zero c = false → DotWriter.ge_one c = false →
          DotWriter.float2int c
          = DotWriter.int_of_float (255 * DotWriter.to_float c + 0.5)%float)
  ∧ (∀ c, is_nan c = false →
          ∃ n, DotWriter.float2int c = Ok n ∧ 0 ≤ n ≤ 255)
  ∧ (∀ r g b, is_nan r = false → is_nan g = false → is_nan b = false →
       ∃ cr cg cb,
         DotWriter.float2int r = Ok cr
         ∧ DotWriter.float2int g = Ok cg
         ∧ DotWriter.float2int b = Ok cb
         ∧ DotWriter.color (r, g, b)
           = Ok (py "#" ++ [hex_digit (cr / 16); hex_digit (cr mod 16);
                            hex_digit (cg / 16); hex_digit (cg mod 16);
                            hex_digit (cb / 16); hex_digit (cb mod 16)]))
  ∧ (∀ d, 0 ≤ d < 16 →
          (48 ≤ hex_digit d ≤ 57 ∨ 97 ≤ hex_digit d ≤ 102)%N)
  ∧ (∀ r g b, is_nan r || is_nan g || is_nan b = true →
       DotWriter.color (r, g, b) = Raise ValueError)
  ∧ DotWriter.color (DotWriter.NInt 0, DotWriter.NInt 0, DotWriter.NInt 0)
    = Ok (py "#000000")
  ∧ DotWriter.color (DotWriter.NFloat 0, DotWriter.NFloat 0, DotWriter.NFloat 0)
    = Ok (py "#000000")
  ∧ DotWriter.color (DotWriter.NInt 1, DotWriter.NInt 1, DotWriter.NInt 1)
    = Ok (py "#ffffff")
  ∧ DotWriter.color (DotWriter.NFloat 1, DotWriter.NFloat 1, DotWriter.NFloat 1)
    = Ok (py "#ffffff")
  ∧ DotWriter.color (DotWriter.NInt (-1), DotWriter.NInt 2, DotWriter.NFloat 0.5)
    = Ok (py "#00ff80")
  ∧ DotWriter.color
      (DotWriter.NFloat (-1), DotWriter.NFloat 2, DotWriter.NFloat 0.5)
    = Ok (py "#00ff80").
Proof.
  split_and!.
  - intros c Hz. unfold DotWriter.float2int. by rewrite Hz.
  - intros c Hz Ho. unfold DotWriter.float2int. by rewrite Hz, Ho.
  - intros c Hz Ho. unfold DotWriter.float2int. by rewrite Hz, Ho.
  - intros c Hc. destruct (float2int_cases c) as [[? _]|[_ ?]]; [congruence|done].
  - intros r g b Hr Hg Hb.
    destruct (float2int_cases r) as [[? _]|[_ (cr & Hcr & ?)]]; [congruence|].
    destruct (float2int_cases g) as [[? _]|[_ (cg & Hcg & ?)]]; [congruence|].
    destruct (float2int_cases b) as [[? _]|[_ (cb & Hcb & ?)]]; [congruence|].
    exists cr, cg, cb. split_and!; try done.
    rewrite (color_run r g b cr cg cb) by done.
    by rewrite !format_02x_channel.
  - apply hex_digit_lowercase.
  - apply color_raise.
  - vm_compute. reflexivity.
  - vm_compute. reflexivity.
  - vm_compute. reflexivity.
  - vm_compute. reflexivity.
  - vm_compute. reflexivity.
  - vm_compute. reflexivity.
Qed.

(** * Further properties of the module *)

(** ** [split] and [join] *)

Lemma split_not_nil sep s : split sep s ≠ [].
Proof.
  destruct s as [|c s]; cbn [split]; [done|].
  destruct (N.eqb c sep); [done|]. by destruct (split sep s).
Qed.

Lemma split_cons_other sep c s :
  c ≠ sep →
  ∃ p ps, split sep s = p :: ps ∧ split sep (c :: s) = (c :: p) :: ps.
Proof.
  intros Hne. cbn [split]. rewrite (proj2 (N.eqb_neq c sep) Hne).
  destruct (split sep s) as [|p ps] eqn:E; [by apply split_not_nil in E|].
  by exists p, ps.
Qed.

Lemma join_split sep s : join [sep] (split sep s) = s.
Proof.
  induction s as [|c s IH]; [done|].
  destruct (N.eqb_spec c sep) as [->|Hne].
  - cbn [split]. rewrite N.eqb_refl.
    destruct (split sep s) as [|p ps] eqn:E; [by apply split_not_nil in E|].
    rewrite join_cons. cbn [app]. by rewrite IH.
  - destruct (split_cons_other sep c s Hne) as (p & ps & E & ->).
    rewrite E, join_cons in IH. rewrite join_cons.
    rewrite <- app_comm_cons. by rewrite IH.
Qed.

Lemma split_no_sep sep s : Forall (fun p => sep ∉ p) (split sep s).
Proof.
  induction s as [|c s IH].
  - apply Forall_singleton, not_elem_of_nil.
  - destruct (N.eqb_spec c sep) as [->|Hne].
    + cbn [split]. rewrite N.eqb_refl.
      apply Forall_cons. split; [apply not_elem_of_nil|done].
    + destruct (split_cons_other sep c s Hne) as (p & ps & E & ->).
      rewrite E in IH. apply Forall_cons in IH as [Hp Hps].
      apply Forall_cons. split; [|done].
      apply not_elem_of_cons. split; [congruence|done].
Qed.

Lemma split_sep_free sep s : sep ∉ s → split sep s = [s].
Proof.
  induction s as [|c s IH]; [done|].
  intros [Hne Hs]%not_elem_of_cons.
  destruct (split_cons_other sep c s) as (p & ps & E & ->); [congruence|].
  rewrite (IH Hs) in E. by injection E as <- <-.
Qed.

Lemma split_app sep a b :
  split sep (a ++ sep :: b) = split sep a ++ split sep b.
Proof.
  induction a as [|c a IH].
  - cbn [app split]. by rewrite N.eqb_refl.
  - destruct (N.eqb_spec c sep) as [->|Hne].
    + cbn [app split]. rewrite N.eqb_refl. by rewrite IH.
    + rewrite <- app_comm_cons.
      destruct (split_cons_other sep c a Hne) as (p & ps & E & ->).
      destruct (split_cons_other sep c (a ++ sep :: b) Hne)
        as (p' & ps' & E' & ->).
      rewrite IH, E in E'. by injection E' as <- <-.
Qed.

Lemma split_join sep parts :
  parts ≠ [] → Forall (fun p => sep ∉ p) parts →
  split sep (join [sep] parts) = parts.
Proof.
  intros Hne Hall. induction Hall as [|p ps Hp Hps IH]; [done|].
  destruct ps as [|q ps].
  - cbn [join]. by apply split_sep_free.
  - rewrite join_cons. cbn [app]. rewrite split_app, IH by done.
    by rewrite (split_sep_free sep p Hp).
Qed.

(** [split] and [join] undo each other: joining the pieces of a string gives
    the string back, no piece contains the separator and there is always a
    piece; and a non-empty list of separator-free pieces is what its join
    splits into. Splitting distributes over a separator. *)
Theorem split_join_round_trip (sep : char) :
  (∀ s, join [sep] (split sep s) = s
        ∧ split sep s ≠ []
        ∧ Forall (fun p => sep ∉ p) (split sep s))
  ∧ (∀ parts, parts ≠ [] → Forall (fun p => sep ∉ p) parts →
              split sep (join [sep] parts) = parts)
  ∧ (∀ a b, split sep (a ++ sep :: b) = split sep a ++ split sep b).
Proof.
  split_and!.
  - intros s. split_and!;
      [apply join_split|apply split_not_nil|apply split_no_sep].
  - apply split_join.
  - apply split_app.
Qed.

(** ** Hidden names *)

Section Names.
Context `{PyRuntime}.

Lemma hidden_app a b :
  _is_hidden_name (a ++ SLASH :: b) = _is_hidden_name a || _is_hidden_name b.
Proof. unfold _is_hidden_name. by rewrite split_app, existsb_app. Qed.

Lemma hidden_segment s :
  SLASH ∉ s → _is_hidden_name s = startswith s HIDDEN_NODE_PREFIX.
Proof.
  intros Hs. unfold _is_hidden_name. rewrite (split_sep_free _ _ Hs).
  cbn [existsb]. apply orb_false_r.
Qed.

Lemma startswith_nil s : startswith s [] = true.
Proof. by destruct s. Qed.

(** A name is hidden exactly when one of its [/]-separated segments starts
    with the hidden prefix. So a path built from two paths with a [/]
    between them is hidden exactly when one of the two is, and a name
    without [/] is hidden exactly when it starts with the prefix, which is
    the test [get_node_names] applies to base names. With an empty prefix
    every name is hidden; otherwise the empty name is not. *)
Theorem hidden_name_by_segment :
  (∀ parts, parts ≠ [] → Forall (fun p => SLASH ∉ p) parts →
     _is_hidden_name (join [SLASH] parts)
     = existsb (fun p => startswith p HIDDEN_NODE_PREFIX) parts)
  ∧ (∀ a b, _is_hidden_name (a ++ SLASH :: b)
            = _is_hidden_name a || _is_hidden_name b)
  ∧ (∀ s, SLASH ∉ s → _is_hidden_name s = startswith s HIDDEN_NODE_PREFIX)
  ∧ (HIDDEN_NODE_PREFIX = [] → ∀ s, _is_hidden_name s = true)
  ∧ (HIDDEN_NODE_PREFIX ≠ [] → _is_hidden_name [] = false).
Proof.
  split_and!.
  - intros parts Hne Hall. unfold _is_hidden_name. by rewrite split_join.
  - apply hidden_app.
  - apply hidden_segment.
  - intros Hp s. unfold _is_hidden_name. rewrite Hp.
    destruct (split SLASH s) as [|p ps] eqn:E; [by apply split_not_nil in E|].
    cbn [existsb]. by rewrite startswith_nil.
  - intros Hp. unfold _is_hidden_name. cbn [split existsb startswith].
    by destruct HIDDEN_NODE_PREFIX.
Qed.

End Names.

(** ** Absolute names *)

Lemma get_absolute_node_name_absolute s :
  s ≠ [] → get_absolute_node_name s = Some (absolute s).
Proof.
  destruct s as [|c s]; [done|]. intros _. unfold get_absolute_node_name, absolute.
  change (py "/") with [SLASH]. cbn [startswith].
  rewrite startswith_nil, andb_true_r.
  destruct (N.eqb_spec c SLASH), (N.eqb_spec SLASH c); done || congruence.
Qed.

Lemma absolute_idempotent s : absolute (absolute s) = absolute s.
Proof.
  destruct (absolute_slash s) as [t Ht]. rewrite Ht. unfold absolute.
  change (py "/") with [SLASH]. cbn [startswith].
  by rewrite N.eqb_refl, startswith_nil.
Qed.

(** [get_absolute_node_name] gives [None] for the empty name and for no
    other. For any other name the result starts with [/], is the name itself
    when that already does, is the name behind one [/] otherwise, is left
    alone by a second application, and is the [full_name] that
    [parse_node_name] computes. On the empty name the two differ:
    [parse_node_name] makes it [/]. *)
Theorem get_absolute_node_name_spec :
  (∀ s, get_absolute_node_name s = None ↔ s = [])
  ∧ (∀ s, s ≠ [] →
       ∃ a, get_absolute_node_name s = Some a
            ∧ startswith a (py "/") = true
            ∧ (startswith s (py "/") = true → a = s)
            ∧ (startswith s (py "/") = false → a = py "/" ++ s)
            ∧ get_absolute_node_name a = Some a
            ∧ ∀ g, ∃ n, parse_node_name s g = (g + 1, Ok n)
                        ∧ full_name n = a)
  ∧ (∀ g, ∃ n, parse_node_name [] g = (g + 1, Ok n)
               ∧ full_name n = py "/" ∧ name n = []
               ∧ namespace n = py "/").
Proof.
  split_and!.
  - intros s. by destruct s.
  - intros s Hs. exists (absolute s).
    destruct (absolute_slash s) as [t Ht]. split_and!.
    + by apply get_absolute_node_name_absolute.
    + apply startswith_slash. eauto.
    + unfold absolute. by intros ->.
    + unfold absolute. by intros ->.
    + rewrite get_absolute_node_name_absolute by (by rewrite Ht).
      by rewrite absolute_idempotent.
    + intros g. destruct (absolute_rpartition s) as (ns & base & E).
      eexists. split; [by apply parse_node_name_run|done].
  - intros g. eexists.
    split; [apply (parse_node_name_run [] g [] []); reflexivity|done].
Qed.

(** ** What [parse_node_name] returns *)

Lemma rpartition_app sep a b :
  sep ∉ b → rpartition sep (a ++ sep :: b) = Some (a, b).
Proof.
  intros Hb. induction a as [|c a IH].
  - cbn [app rpartition]. rewrite (proj2 (rpartition_None sep b) Hb).
    by rewrite N.eqb_refl.
  - cbn [app rpartition]. by rewrite IH.
Qed.

Lemma endswith_slash s :
  endswith s (py "/") = true ↔ ∃ t, s = t ++ [SLASH].
Proof.
  unfold endswith. change (rev (py "/")) with (py "/").
  rewrite startswith_slash. split.
  - intros [t Ht]. exists (rev t).
    by rewrite <- (rev_involutive s), Ht.
  - intros [t ->]. exists (rev t). by rewrite rev_unit.
Qed.

(** The fields of a parsed name: the base name contains no [/]; the
    namespace and the full name start with [/]; the full name is what stands
    before its last [/], that [/] and the base name; and the namespace is
    what stands before the last [/], or [/] when nothing does. So the
    namespace [/] is that of [/b], whose full name is [/b], and also that of
    [//b], whose full name is [//b]: the namespace alone does not tell
    whether the full name has the second [/]. Parsing the full name again
    gives the same three fields. *)
Theorem parse_node_name_invariants (node_name : str) (g : Z) :
  (∃ n, parse_node_name node_name g = (g + 1, Ok n)
       ∧ (SLASH ∉ name n)
       ∧ startswith (namespace n) (py "/") = true
       ∧ startswith (full_name n) (py "/") = true
       ∧ (∃ before, full_name n = before ++ [SLASH] ++ name n
                    ∧ namespace n
                      = if bool_decide (before = []) then py "/" else before)
       ∧ ∀ g', ∃ n', parse_node_name (full_name n) g' = (g' + 1, Ok n')
                     ∧ name n' = name n
                     ∧ namespace n' = namespace n
                     ∧ full_name n' = full_name n)
  ∧ parse_node_name (py "/b") g
    = (g + 1, Ok {| name := py "b"; namespace := py "/";
                    full_name := py "/b";
                    id := py "node_" ++ str_int (g + 1) |})
  ∧ parse_node_name (py "//b") g
    = (g + 1, Ok {| name := py "b"; namespace := py "/";
                    full_name := py "//b";
                    id := py "node_" ++ str_int (g + 1) |}).
Proof.
  split;
    [|split;
       [exact (parse_node_name_run (py "/b") g [] (py "b") eq_refl)
       |exact (parse_node_name_run (py "//b") g (py "/") (py "b") eq_refl)]].
  destruct (absolute_rpartition node_name) as (ns & base & E).
  destruct (rpartition_Some _ _ _ _ E) as [Heq Hbase].
  destruct (absolute_slash node_name) as [t Ht].
  eexists. split; [by apply parse_node_name_run|]. cbn [name namespace full_name].
  split_and!.
  - done.
  - case_decide as Hns; [done|]. apply startswith_slash.
    rewrite Ht in Heq. destruct ns as [|c ns]; [done|].
    injection Heq as <- _. eauto.
  - apply startswith_slash. eauto.
  - exists ns. split; [exact Heq|].
    case_decide as Hns; case_bool_decide; done.
  - intros g'. eexists. split.
    + apply parse_node_name_run. rewrite absolute_idempotent. exact E.
    + by rewrite absolute_idempotent.
Qed.

(** The full name that [get_node_names] builds from a base name and a
    namespace is parsed back into the two by [parse_node_name], provided the
    base name contains no [/] and the namespace starts with [/] and, unless
    it is the root [/], does not end with one. *)
Theorem parse_node_name_recovers_pair (base ns : str) (g : Z) :
  SLASH ∉ base →
  startswith ns (py "/") = true →
  ns = py "/" ∨ endswith ns (py "/") = false →
  parse_node_name (ns ++ (if endswith ns (py "/") then [] else py "/") ++ base) g
  = (g + 1,
     Ok {| name := base; namespace := ns;
           full_name := ns ++ (if endswith ns (py "/") then [] else py "/")
                           ++ base;
           id := py "node_" ++ str_int (g + 1) |}).
Proof.
  intros Hbase Hstart Hend.
  set (full := ns ++ (if endswith ns (py "/") then [] else py "/") ++ base).
  assert (rpartition SLASH full
          = Some (if decide (ns = py "/") then [] else ns, base)) as Hpart.
  { subst full. case_decide as Hroot.
    - subst ns. change (endswith (py "/") (py "/")) with true.
      apply (rpartition_app SLASH [] base Hbase).
    - destruct Hend as [?|Hend]; [done|]. rewrite Hend.
      by apply rpartition_app. }
  assert (absolute full = full) as Habs.
  { unfold absolute. apply startswith_slash in Hstart as [t ->].
    subst full. by rewrite <- app_comm_cons,
      (proj2 (startswith_slash (SLASH :: _)) (ex_intro _ _ eq_refl)). }
  rewrite <- Habs in Hpart.
  rewrite (parse_node_name_run full g _ _ Hpart), Habs. do 3 f_equal.
  case_decide as Hroot; [by rewrite decide_True|].
  rewrite decide_False; [done|].
  intros ->. by apply startswith_slash in Hstart as [? ?].
Qed.

(** ** Listing nodes and topics *)

Section Listing.
Context `{PyRuntime}.

(** [get_node_names] never raises and keeps the order of the pairs it is
    given. With [include_hidden_nodes] it returns one record per pair;
    without, exactly the pairs whose base name is not empty and does not
    start with the hidden prefix. Each record carries the base name and the
    namespace as given, and as full name the namespace, a [/] unless the
    namespace ends with one, and the base name. The counter advances by the
    number of records returned. *)
Theorem get_node_names_filters
    (l : list (str * str)) (include_hidden_nodes : bool) (g : Z) :
  ∃ ns,
    get_node_names l include_hidden_nodes g = (g + Z.of_nat (length ns), Ok ns)
    ∧ List.map (fun n => (name n, namespace n)) ns
      = List.filter
          (fun t => include_hidden_nodes
                    || negb (bool_decide (t.1 = []))
                       && negb (startswith t.1 HIDDEN_NODE_PREFIX)) l
    ∧ Forall (fun n => full_name n
                       = namespace n
                         ++ (if endswith (namespace n) (py "/")
                             then [] else py "/")
                         ++ name n) ns
    ∧ (include_hidden_nodes = true →
       List.map (fun n => (name n, namespace n)) ns = l)
    ∧ (include_hidden_nodes = false →
       Forall (fun n => name n ≠ []
                        ∧ startswith (name n) HIDDEN_NODE_PREFIX = false) ns).
Proof.
  revert g. induction l as [|t l IH]; intros g.
  { exists []. split_and!; try done. cbn. unfold ret. do 2 f_equal. lia. }
  cbn [get_node_names List.filter].
  destruct (include_hidden_nodes
            || negb (bool_decide (t.1 = []))
               && negb (startswith t.1 HIDDEN_NODE_PREFIX)) eqn:Hkeep.
  - destruct (IH (g + 1)) as (ns & Hrun & Hmap & Hfull & Hall & Hvis).
    exists (mkNodeName t.1 t.2
              (t.2 ++ (if endswith t.2 (py "/") then [] else py "/") ++ t.1)
              (py "node_" ++ str_int (g + 1)) :: ns).
    split_and!.
    + unfold bind at 1, get_id. unfold bind at 1. rewrite Hrun.
      unfold ret. f_equal. cbn [length]. lia.
    + cbn [List.map name namespace]. rewrite Hmap.
      match goal with |- context [if ?c then _ else _] =>
        replace c with true by (symmetry; exact Hkeep) end.
      by destruct t.
    + apply Forall_cons. split; [done|exact Hfull].
    + intros Hh. cbn [List.map name namespace]. rewrite (Hall Hh).
      by destruct t.
    + intros Hh. apply Forall_cons. split; [|by apply Hvis].
      cbn [name]. rewrite Hh in Hkeep. cbn [orb] in Hkeep.
      apply andb_prop in Hkeep as [Hne Hpre].
      apply negb_true_iff in Hne, Hpre.
      split; [by apply bool_decide_eq_false in Hne|done].
  - destruct (IH g) as (ns & Hrun & Hmap & Hfull & Hall & Hvis).
    exists ns. split_and!; try done.
    + match goal with |- context [if ?c then _ else _] =>
        replace c with false by (symmetry; exact Hkeep) end.
      done.
    + intros Hh. by rewrite Hh in Hkeep.
Qed.

Lemma get_topics_run remote func h g :
  ∃ n, parse_node_name remote g = (g + 1, Ok n)
       ∧ get_topics remote func h g
         = (g + 1,
            Ok (List.map (fun t => TopicInfo.mk t.1 t.2)
                  (List.filter (fun t => h || negb (_is_hidden_name t.1))
                     (func (name n) (namespace n))))).
Proof.
  destruct (absolute_rpartition remote) as (ns & base & E).
  eexists. split; [by apply parse_node_name_run|].
  unfold get_topics.
  by rewrite (bind_ok _ _ _ _ _ (parse_node_name_run remote g _ _ E)).
Qed.

Lemma map_filter_pair {A B C} (f : A → B → C) (p : A → B → bool)
    (l : list (A * B)) :
  List.map (fun '(a, b) => f a b) (List.filter (fun '(a, b) => p a b) l)
  = List.map (fun t => f t.1 t.2) (List.filter (fun t => p t.1 t.2) l).
Proof.
  induction l as [|[a b] l IH]; [done|]. cbn [List.filter fst snd].
  destruct (p a b); cbn [List.map fst snd]; by rewrite IH.
Qed.

(** [get_topics] asks the node for the entities of the parsed name and
    namespace and returns them in the order received, as they are: all of
    them with [include_hidden_topics], and otherwise exactly those whose name
    has no segment starting with the hidden prefix. It never raises, and
    every call takes one identifier from the counter for the name it parses.
    The six getters of the module are this function on the matching method
    of the node, the two action getters included, which the source writes
    out separately. *)
Theorem get_topics_filters (remote_node_name : str)
    (func : str → str → list (str * list str)) (g : Z) :
  ∃ n, parse_node_name remote_node_name g = (g + 1, Ok n)
    ∧ (∃ ts, get_topics remote_node_name func true g = (g + 1, Ok ts)
             ∧ List.map (fun t => (TopicInfo.name t, TopicInfo.types t)) ts
               = func (name n) (namespace n))
    ∧ (∃ ts, get_topics remote_node_name func false g = (g + 1, Ok ts)
             ∧ List.map (fun t => (TopicInfo.name t, TopicInfo.types t)) ts
               = List.filter (fun t => negb (_is_hidden_name t.1))
                   (func (name n) (namespace n))
             ∧ Forall (fun t => _is_hidden_name (TopicInfo.name t) = false) ts)
    ∧ (∀ node h,
         Forall (fun '(getter, method) =>
                   getter node remote_node_name h g
                   = get_topics remote_node_name (method node) h g)
           [(get_subscriber_info, get_subscriber_names_and_types_by_node);
            (get_publisher_info, get_publisher_names_and_types_by_node);
            (get_service_client_info, get_client_names_and_types_by_node);
            (get_service_server_info, get_service_names_and_types_by_node);
            (get_action_server_info,
             get_action_server_names_and_types_by_node);
            (get_action_client_info,
             get_action_client_names_and_types_by_node)]).
Proof.
  destruct (absolute_rpartition remote_node_name) as (ns & base & E).
  pose proof (parse_node_name_run remote_node_name g _ _ E) as Hparse.
  eexists. split; [exact Hparse|]. cbn [name namespace].
  set (l := func base (if decide (ns = []) then py "/" else ns)).
  split_and!.
  - eexists. split.
    + unfold get_topics. rewrite (bind_ok _ _ _ _ _ Hparse). reflexivity.
    + cbn [name namespace orb]. fold l.
      rewrite List.map_map. cbn [TopicInfo.name TopicInfo.types].
      assert (List.filter (fun _ : str * list str => true) l = l) as ->.
      { induction l as [|x l' IH]; [done|]. cbn. by rewrite IH. }
      rewrite <- (List.map_id l) at 2. apply List.map_ext. by intros [].
  - eexists. split_and!.
    + unfold get_topics. rewrite (bind_ok _ _ _ _ _ Hparse). reflexivity.
    + cbn [name namespace orb]. fold l.
      rewrite List.map_map. cbn [TopicInfo.name TopicInfo.types].
      rewrite <- (List.map_id (List.filter _ l)) at 2.
      apply List.map_ext. by intros [].
    + cbn [name namespace orb]. fold l.
      apply Forall_forall. intros t Hin.
      apply list_elem_of_In, in_map_iff in Hin as (x & <- & Hx).
      apply filter_In in Hx as [_ Hx]. cbn [TopicInfo.name].
      by apply negb_true_iff in Hx.
  - intros node h.
    assert (get_action_server_info node remote_node_name h g
            = get_topics remote_node_name
                (get_action_server_names_and_types_by_node node) h g
            ∧ get_action_client_info node remote_node_name h g
              = get_topics remote_node_name
                  (get_action_client_names_and_types_by_node node) h g)
      as [Hserver Hclient].
    { unfold get_action_server_info, get_action_client_info, get_topics.
      rewrite !(bind_ok _ _ _ _ _ Hparse). unfold ret.
      by rewrite !(map_filter_pair (fun n t => TopicInfo.mk n t)
                     (fun n _ => h || negb (_is_hidden_name n))). }
    repeat (apply Forall_cons; split; [done|]). apply Forall_nil_2.
Qed.

End Listing.

(** ** Duplicates *)

Lemma size_list_to_set_le (l : list str) :
  (size (list_to_set l : gset str) ≤ length l)%nat.
Proof.
  induction l as [|x l IH]; [by rewrite list_to_set_nil, size_empty|].
  rewrite list_to_set_cons. cbn [length].
  rewrite size_union_alt, size_singleton.
  assert ((list_to_set l : gset str) ∖ {[x]} ⊆ list_to_set l) as Hsub
    by (by apply subseteq_difference_l).
  apply subseteq_size in Hsub. lia.
Qed.

Lemma size_list_to_set_NoDup (l : list str) :
  size (list_to_set l : gset str) = length l ↔ NoDup l.
Proof.
  split; [|apply size_list_to_set].
  induction l as [|x l IH]; [intros _; apply NoDup_nil_2|].
  rewrite list_to_set_cons. cbn [length]. intros Hsize.
  pose proof (size_list_to_set_le l) as Hle.
  destruct (decide (x ∈ l)) as [Hin|Hnotin].
  - assert ({[x]} ∪ (list_to_set l : gset str) = list_to_set l) as Heq.
    { apply subseteq_union_1_L, singleton_subseteq_l.
      by apply elem_of_list_to_set. }
    rewrite Heq in Hsize. lia.
  - rewrite size_union in Hsize
      by (apply disjoint_singleton_l; by rewrite elem_of_list_to_set).
    rewrite size_singleton in Hsize.
    apply NoDup_cons. split; [done|]. apply IH. lia.
Qed.

Lemma not_NoDup_repeated (l : list str) :
  ¬ NoDup l ↔ ∃ l1 x l2 l3, l = l1 ++ x :: l2 ++ x :: l3.
Proof.
  split.
  - induction l as [|x l IH]; intros Hnot.
    { destruct Hnot. apply NoDup_nil_2. }
    destruct (decide (x ∈ l)) as [Hin|Hnotin].
    + apply list_elem_of_split in Hin as (l2 & l3 & ->).
      by exists [], x, l2, l3.
    + destruct IH as (l1 & y & l2 & l3 & ->).
      { intros Hnd. apply Hnot. by apply NoDup_cons. }
      by exists (x :: l1), y, l2, l3.
  - intros (l1 & x & l2 & l3 & ->) Hnd.
    apply NoDup_app in Hnd as (_ & _ & Hnd).
    apply NoDup_cons in Hnd as [Hx _]. apply Hx.
    apply elem_of_app. right. apply list_elem_of_here.
Qed.

(** [has_duplicates] is true exactly for the lists in which some value
    occurs twice; the empty list and every list of distinct values give
    false, and the order of the values does not matter. *)
Theorem has_duplicates_iff :
  (∀ values, has_duplicates values = true ↔
       ∃ l1 x l2 l3, values = l1 ++ x :: l2 ++ x :: l3)
  ∧ (∀ values, has_duplicates values = false ↔ NoDup values)
  ∧ has_duplicates [] = false
  ∧ (∀ v1 v2, v1 ≡ₚ v2 → has_duplicates v1 = has_duplicates v2).
Proof.
  assert (∀ values, has_duplicates values = true ↔ ¬ NoDup values) as Hiff.
  { intros values. unfold has_duplicates. rewrite bool_decide_eq_true.
    rewrite <- size_list_to_set_NoDup.
    pose proof (size_list_to_set_le values). lia. }
  assert (∀ values, has_duplicates values = false ↔ NoDup values) as Hiff'.
  { intros values. rewrite <- not_true_iff_false, Hiff.
    split; [apply dec_stable|by intros ? ?]. }
  split_and!.
  - intros values. by rewrite Hiff, not_NoDup_repeated.
  - exact Hiff'.
  - done.
  - intros v1 v2 Hp. apply eq_true_iff_eq. rewrite !Hiff. by rewrite Hp.
Qed.

(** ** Escaping is reversible *)

Lemma escape_char_not_nil c : escape_char c ≠ [].
Proof.
  unfold escape_char.
  by destruct (N.eqb c BACKSLASH), (N.eqb c LF), (N.eqb c TAB),
    (N.eqb c DQUOTE).
Qed.

(** The first character of an escape sequence is a backslash only for the
    four characters that are escaped, and the second then tells which. *)
Lemma escape_char_inj c d x y :
  escape_char c ++ x = escape_char d ++ y → c = d ∧ x = y.
Proof.
  unfold escape_char.
  destruct (N.eqb_spec c BACKSLASH) as [->|Hcb];
    [|destruct (N.eqb_spec c LF) as [->|Hcl];
      [|destruct (N.eqb_spec c TAB) as [->|Hct];
        [|destruct (N.eqb_spec c DQUOTE) as [->|Hcq]]]];
  (destruct (N.eqb_spec d BACKSLASH) as [->|Hdb];
    [|destruct (N.eqb_spec d LF) as [->|Hdl];
      [|destruct (N.eqb_spec d TAB) as [->|Hdt];
        [|destruct (N.eqb_spec d DQUOTE) as [->|Hdq]]]]);
  intros Heq; by simplify_eq/=.
Qed.

Lemma flat_map_escape_char_inj s1 s2 :
  flat_map escape_char s1 = flat_map escape_char s2 → s1 = s2.
Proof.
  revert s2. induction s1 as [|c s1 IH]; intros [|d s2]; cbn [flat_map].
  - done.
  - intros Heq. symmetry in Heq. apply app_eq_nil in Heq as [Heq _].
    by apply escape_char_not_nil in Heq.
  - intros Heq. apply app_eq_nil in Heq as [Heq _].
    by apply escape_char_not_nil in Heq.
  - intros [-> Heq]%escape_char_inj. f_equal. by apply IH.
Qed.

Lemma escape_char_no_control c :
  (LF ∉ escape_char c) ∧ (TAB ∉ escape_char c).
Proof.
  unfold escape_char.
  destruct (N.eqb_spec c BACKSLASH) as [->|Hcb];
    [|destruct (N.eqb_spec c LF) as [->|Hcl];
      [|destruct (N.eqb_spec c TAB) as [->|Hct];
        [|destruct (N.eqb_spec c DQUOTE) as [->|Hcq]]]];
  split; intros Hin;
  repeat (apply elem_of_cons in Hin as [Hin|Hin];
          [first [discriminate Hin|congruence]|]);
  by apply elem_of_nil in Hin.
Qed.

Lemma escape_char_length c : (1 ≤ length (escape_char c) ≤ 2)%nat.
Proof.
  unfold escape_char.
  destruct (N.eqb c BACKSLASH), (N.eqb c LF), (N.eqb c TAB),
    (N.eqb c DQUOTE); cbn; lia.
Qed.

Section WriterMore.
Context `{PyRuntime}.
Import DotWriter.

(** Two different strings never have the same escaped form, so the text of
    a quoted identifier determines the string it was made from. *)
Theorem escape_injective (s1 s2 : str) :
  escape s1 = escape s2 ↔ s1 = s2.
Proof.
  split; [|by intros ->]. rewrite !escape_quoted. unfold quoted.
  intros Heq. apply app_inv_head, app_inv_tail in Heq.
  by apply flat_map_escape_char_inj.
Qed.

(** An escaped string stays on one line: it contains no newline and no
    tab, begins and ends with a double quote, and has at least the length of
    the string plus the two quotes and at most twice the length of the
    string plus the two quotes. *)
Theorem escape_single_line (s : str) :
  (LF ∉ escape s)
  ∧ (TAB ∉ escape s)
  ∧ (∃ body, escape s = [DQUOTE] ++ body ++ [DQUOTE])
  ∧ (length s + 2 ≤ length (escape s) ≤ 2 * length s + 2)%nat.
Proof.
  rewrite escape_quoted. unfold quoted.
  assert ((LF ∉ flat_map escape_char s) ∧ (TAB ∉ flat_map escape_char s)
          ∧ (length s ≤ length (flat_map escape_char s) ≤ 2 * length s)%nat)
    as (Hlf & Htab & Hlen).
  { induction s as [|c s (IH1 & IH2 & IH3)]; cbn [flat_map].
    - split; [|split]; [apply not_elem_of_nil|apply not_elem_of_nil|cbn; lia].
    - destruct (escape_char_no_control c) as [H1 H2].
      pose proof (escape_char_length c).
      split; [|split]; [by apply not_elem_of_app|by apply not_elem_of_app|].
      rewrite length_app. cbn [length]. lia. }
  split; [|split; [|split]].
  - apply not_elem_of_app. split; [|apply not_elem_of_app; split; [done|]];
      (apply not_elem_of_cons; split; [done|apply not_elem_of_nil]).
  - apply not_elem_of_app. split; [|apply not_elem_of_app; split; [done|]];
      (apply not_elem_of_cons; split; [done|apply not_elem_of_nil]).
  - eauto.
  - rewrite !length_app. cbn [length]. lia.
Qed.

Lemma isalnum_head s :
  isalnum s = true → ∃ c t, s = c :: t ∧ char_isalnum c = true.
Proof.
  destruct s as [|c t]; [done|]. cbn [isalnum forallb].
  intros [Hc _]%andb_prop. eauto.
Qed.

(** Two different strings are never written as the same identifier. *)
Theorem string_ids_distinct (s1 s2 : str) (fp : str) :
  s1 ≠ s2 → id (VStr s1) fp ≠ id (VStr s2) fp.
Proof.
  intros Hne Heq. apply Hne. clear Hne.
  rewrite !id_run in Heq by done.
  injection Heq as Heq. apply app_inv_head in Heq. cbn [id_text] in Heq.
  destruct (isalnum s1 && negb (startswith s1 (py "0x"))) eqn:E1,
    (isalnum s2 && negb (startswith s2 (py "0x"))) eqn:E2.
  - done.
  - apply andb_prop in E1 as [(c & t & -> & Hc)%isalnum_head _].
    unfold quoted in Heq. cbn [app] in Heq. injection Heq as -> _.
    by vm_compute in Hc.
  - apply andb_prop in E2 as [(c & t & -> & Hc)%isalnum_head _].
    unfold quoted in Heq. cbn [app] in Heq. injection Heq as <- _.
    by vm_compute in Hc.
  - unfold quoted in Heq. apply app_inv_head, app_inv_tail in Heq.
    by apply flat_map_escape_char_inj.
Qed.

(** ** [clean] *)

Lemma join_nil_concat (l : list str) : join [] l = concat l.
Proof.
  induction l as [|p l IH]; [done|]. rewrite join_cons. cbn [concat app].
  rewrite <- IH. by destruct l.
Qed.

Lemma clean_map dirty : clean dirty = clean_char <$> dirty.
Proof.
  unfold clean. rewrite join_nil_concat.
  induction dirty as [|c s IH]; [done|]. cbn [List.map concat fmap list_fmap].
  rewrite IH. unfold clean_char. cbn [isalnum forallb].
  rewrite andb_true_r. by destruct (char_isalnum c).
Qed.

Lemma clean_char_idempotent c : clean_char (clean_char c) = clean_char c.
Proof.
  unfold clean_char. destruct (char_isalnum c) eqn:E; [by rewrite E|].
  by destruct (char_isalnum 95%N).
Qed.

Lemma clean_char_plain c : escape_char (clean_char c) = [clean_char c].
Proof.
  unfold clean_char, escape_char.
  destruct (char_isalnum c) eqn:E; [|done].
  destruct (N.eqb_spec c BACKSLASH) as [->|_]; [done|].
  destruct (N.eqb_spec c LF) as [->|_]; [done|].
  destruct (N.eqb_spec c TAB) as [->|_]; [done|].
  by destruct (N.eqb_spec c DQUOTE) as [->|_].
Qed.

(** [clean] works character by character: the result has the length of the
    argument, with an alphanumeric character kept and any other replaced by
    an underscore. Its result consists of alphanumeric characters and
    underscores only; these are exactly the strings that [clean] leaves
    unchanged, and cleaning twice is cleaning once. *)
Theorem clean_spec (dirty : str) :
  length (clean dirty) = length dirty
  ∧ clean dirty = List.map (fun c => if isalnum [c] then c else 95%N) dirty
  ∧ Forall (fun c => isalnum [c] = true ∨ c = 95%N) (clean dirty)
  ∧ clean (clean dirty) = clean dirty
  ∧ (clean dirty = dirty ↔
     Forall (fun c => isalnum [c] = true ∨ c = 95%N) dirty).
Proof.
  assert (∀ c, isalnum [c] = char_isalnum c) as Hone
    by (intros c; cbn [isalnum forallb]; apply andb_true_r).
  rewrite !clean_map. split_and!.
  - apply length_fmap.
  - apply List.map_ext. intros c. unfold clean_char.
    cbn [isalnum forallb]. by rewrite andb_true_r.
  - apply Forall_forall. intros x (c & -> & _)%list_elem_of_fmap.
    unfold clean_char.
    destruct (char_isalnum c) eqn:E; [left; by rewrite Hone|by right].
  - rewrite <- list_fmap_compose. apply list_fmap_ext.
    intros i c _. apply clean_char_idempotent.
  - induction dirty as [|c s IH]; [done|]. rewrite fmap_cons, Forall_cons.
    rewrite <- IH, Hone. unfold clean_char. split.
    + intros [= Hc Hs]. split; [|done].
      destruct (char_isalnum c); [by left|by right].
    + intros [[Hc|Hc] ->]; [by rewrite Hc|].
      subst c. by destruct (char_isalnum 95%N).
Qed.

(** A cleaned string needs no escaping: quoted, it is the string itself
    between two double quotes. More generally that holds for every string
    without backslash, newline, tab and double quote. *)
Theorem clean_needs_no_escape :
  (∀ dirty, escape (clean dirty) = [DQUOTE] ++ clean dirty ++ [DQUOTE])
  ∧ (∀ s, BACKSLASH ∉ s → LF ∉ s → TAB ∉ s → DQUOTE ∉ s →
          escape s = [DQUOTE] ++ s ++ [DQUOTE])
  ∧ (∀ dirty, (BACKSLASH ∉ clean dirty) ∧ (LF ∉ clean dirty)
              ∧ (TAB ∉ clean dirty) ∧ (DQUOTE ∉ clean dirty)).
Proof.
  split_and!.
  - intros dirty. rewrite escape_quoted, clean_map. unfold quoted. do 2 f_equal.
    induction dirty as [|c s IH]; [done|].
    rewrite fmap_cons. cbn [flat_map]. by rewrite IH, clean_char_plain.
  - intros s Hb Hl Ht Hq. rewrite escape_quoted. unfold quoted. do 2 f_equal.
    induction s as [|c s IH]; [done|].
    apply not_elem_of_cons in Hb as [? ?], Hl as [? ?], Ht as [? ?],
      Hq as [? ?].
    cbn [flat_map]. rewrite IH by done. unfold escape_char.
    by rewrite !(proj2 (N.eqb_neq c _)) by congruence.
  - intros dirty. rewrite clean_map.
    assert (∀ c : char, clean_char c ≠ BACKSLASH ∧ clean_char c ≠ LF
                        ∧ clean_char c ≠ TAB ∧ clean_char c ≠ DQUOTE) as Hc.
    { intros c. unfold clean_char. destruct (char_isalnum c) eqn:E; [|done].
      split_and!; intros ->; done. }
    split_and!; intros (c & Heq & _)%list_elem_of_fmap;
      destruct (Hc c) as (? & ? & ? & ?); congruence.
Qed.

End WriterMore.

(** ** Writing only appends *)

Lemma appends_ret {A} (a : A) : appends (ret a).
Proof. intros fp. unfold ret. cbn. by rewrite app_nil_r. Qed.

Lemma appends_raise {A} e : appends (raise (A := A) e).
Proof. intros fp. unfold raise. cbn. by rewrite app_nil_r. Qed.

Lemma appends_bind {A B} (m : M str A) (k : A → M str B) :
  appends m → (∀ a, appends (k a)) → appends (bind m k).
Proof.
  intros Hm Hk fp. unfold bind. rewrite (Hm fp).
  destruct (m []) as [o1 [a|e]]; cbn [fst snd]; [|done].
  rewrite (Hk a (fp ++ o1)), (Hk a o1). cbn [fst snd].
  by rewrite app_assoc.
Qed.

Lemma appends_for_each {A} (xs : list A) (body : A → M str unit) :
  (∀ x, appends (body x)) → appends (for_each xs body).
Proof.
  intros Hbody. induction xs as [|x xs IH]; cbn [for_each].
  - apply appends_ret.
  - apply appends_bind; [done|]. by intros _.
Qed.

Section Appends.
Context `{PyRuntime}.
Import DotWriter.

Lemma appends_write s : appends (write s).
Proof. intros fp. done. Qed.

Lemma appends_id v : appends (id v).
Proof.
  unfold id. apply appends_bind; [|intros s; apply appends_write].
  destruct v; try apply appends_ret; try apply appends_raise.
  destruct (isalnum s && negb (startswith s (py "0x"))); apply appends_ret.
Qed.

Lemma appends_key_value k v : appends (key_value k v).
Proof.
  unfold key_value. apply appends_bind; [apply appends_id|intros _].
  apply appends_bind; [apply appends_write|intros _]. apply appends_id.
Qed.

Lemma appends_attr_items first items : appends (attr_items first items).
Proof.
  revert first. induction items as [|[k v] items IH]; intros first;
    cbn [attr_items].
  - apply appends_ret.
  - destruct (is_none v); [apply IH|].
    apply appends_bind; [|intros _].
    { destruct first; [apply appends_ret|apply appends_write]. }
    apply appends_bind; [apply appends_key_value|intros _]. apply IH.
Qed.

Lemma appends_attr_list attrs : appends (attr_list attrs).
Proof.
  unfold attr_list. destruct attrs; [apply appends_ret|].
  apply appends_bind; [apply appends_write|intros _].
  apply appends_bind; [apply appends_attr_items|intros _]. apply appends_write.
Qed.

Lemma appends_attr_stmts attrs : appends (attr_stmts attrs).
Proof.
  unfold attr_stmts. apply appends_for_each. intros [k v].
  destruct (is_none v); [apply appends_ret|].
  apply appends_bind; [apply appends_write|intros _].
  apply appends_bind; [apply appends_key_value|intros _]. apply appends_write.
Qed.

(** No method of the writer looks at, or changes, what the sink already
    holds: called on a sink with contents [fp] it leaves [fp] followed by
    what it would write to an empty sink, with the same result or exception.
    This also holds when the method raises half-way: what was written until
    then stays. The property passes to any sequence of calls. *)
Theorem writer_appends :
  (∀ s, appends (write s))
  ∧ (∀ v, appends (id v))
  ∧ (∀ k v, appends (key_value k v))
  ∧ (∀ attrs, appends (attr_list attrs))
  ∧ (∀ what attrs, appends (attr what attrs))
  ∧ (∀ n attrs, appends (node n attrs))
  ∧ (∀ src dst attrs, appends (edge src dst attrs))
  ∧ (∀ attrs, appends (begin_graph attrs))
  ∧ (∀ g attrs, appends (begin_subgraph g attrs))
  ∧ appends end_graph
  ∧ appends end_subgraph
  ∧ (∀ (A B : Type) (m : M str A) (k : A → M str B),
       appends m → (∀ a, appends (k a)) → appends (bind m k))
  ∧ (∀ (m1 m2 : M str unit) fp o1,
       appends m1 → appends m2 → m1 [] = (o1, Ok tt) →
       (m1 >> m2) fp = (fp ++ o1 ++ (m2 []).1, (m2 []).2)).
Proof.
  split_and!.
  - apply appends_write.
  - apply appends_id.
  - apply appends_key_value.
  - apply appends_attr_list.
  - intros what attrs. unfold attr.
    repeat (apply appends_bind; [|intros _]);
      first [apply appends_write|apply appends_attr_list].
  - intros n attrs. unfold node.
    repeat (apply appends_bind; [|intros _]);
      first [apply appends_write|apply appends_id|apply appends_attr_list].
  - intros src dst attrs. unfold edge.
    repeat (apply appends_bind; [|intros _]);
      first [apply appends_write|apply appends_id|apply appends_attr_list].
  - intros attrs. unfold begin_graph.
    apply appends_bind; [apply appends_write|intros _].
    apply appends_attr_stmts.
  - intros g attrs. unfold begin_subgraph.
    repeat (apply appends_bind; [|intros _]);
      first [apply appends_write|apply appends_id|apply appends_attr_stmts].
  - apply appends_write.
  - apply appends_write.
  - intros A B. apply appends_bind.
  - intros m1 m2 fp o1 H1 H2 Hrun. unfold bind.
    rewrite (H1 fp), Hrun. cbn [fst snd]. rewrite (H2 (fp ++ o1)).
    by rewrite app_assoc.
Qed.

(** ** Graph and subgraph headers *)

Lemma attr_stmts_run attrs fp :
  renderable attrs →
  attr_stmts attrs fp
  = (fp ++ flat_map (fun kv => [TAB] ++ key_value_text kv ++ py ";" ++ [LF])
             (rendered_items attrs), Ok tt).
Proof.
  intros Hr%renderable_sorted. unfold attr_stmts, rendered_items.
  revert fp.
  induction Hr as [|[k v] items Hkv _ IH]; intros fp; cbn [for_each List.filter].
  { unfold ret. by rewrite app_nil_r. }
  replace (non_null (k, v)) with (negb (is_none v)) by done.
  cbn [snd] in Hkv.
  destruct (is_none v) eqn:Hnone; cbn [negb orb] in Hkv |- *.
  { unfold bind at 1, ret at 1. apply IH. }
  erewrite bind_ok.
  2:{ rewrite (bind_ok _ _ _ _ _ (write_run _ _)).
      rewrite (bind_ok _ _ _ _ _ (key_value_run k v _ Hkv)).
      apply write_run. }
  rewrite IH. cbn [flat_map]. f_equal.
  by rewrite <- !app_assoc.
Qed.

(** [begin_graph] writes [digraph {] and a newline, then one line per
    attribute whose value is not [None], in the order of the keys: a tab,
    [key=value], a semicolon and a newline. With no attribute, or with none
    but [None] values, only the header is written (here, unlike in an
    attribute list, nothing stands for the attributes left out).
    [begin_subgraph] does the same after [subgraph], the identifier and
    [ {]; [end_graph] and [end_subgraph] write the closing brace. *)
Theorem begin_graph_rendering (attrs : dict) (fp : str) :
  renderable attrs →
  begin_graph attrs fp
  = (fp ++ py "digraph {" ++ [LF]
        ++ flat_map (fun kv => [TAB] ++ key_value_text kv ++ py ";" ++ [LF])
             (rendered_items attrs), Ok tt)
  ∧ (∀ g, supported g = true →
       begin_subgraph g attrs fp
       = (fp ++ py "subgraph " ++ id_text g ++ py " {" ++ [LF]
             ++ flat_map
                  (fun kv => [TAB] ++ key_value_text kv ++ py ";" ++ [LF])
                  (rendered_items attrs), Ok tt))
  ∧ (Forall (fun kv => kv.2 = VNone) attrs →
     begin_graph attrs fp = (fp ++ py "digraph {" ++ [LF], Ok tt))
  ∧ end_graph fp = (fp ++ py "}" ++ [LF], Ok tt)
  ∧ end_subgraph fp = (fp ++ py "}" ++ [LF], Ok tt).
Proof.
  intros Hr.
  assert (begin_graph attrs fp
          = (fp ++ py "digraph {" ++ [LF]
                ++ flat_map
                     (fun kv => [TAB] ++ key_value_text kv ++ py ";" ++ [LF])
                     (rendered_items attrs), Ok tt))
    as Hbegin.
  { unfold begin_graph. rewrite (bind_ok _ _ _ _ _ (write_run _ _)).
    rewrite (attr_stmts_run _ _ Hr). by rewrite <- !app_assoc. }
  split_and!.
  - exact Hbegin.
  - intros g Hg. unfold begin_subgraph.
    rewrite (bind_ok _ _ _ _ _ (write_run _ _)).
    rewrite (bind_ok _ _ _ _ _ (id_run _ _ Hg)).
    rewrite (bind_ok _ _ _ _ _ (write_run _ _)).
    rewrite (attr_stmts_run _ _ Hr). by rewrite <- !app_assoc.
  - intros Hnull. rewrite Hbegin, (rendered_items_all_null attrs Hnull).
    cbn [flat_map]. by rewrite app_nil_r.
  - done.
  - done.
Qed.

End Appends.

(** ** Identifiers of nodes in the graph *)

Lemma string_of_uint_digits d :
  Forall (fun c => (48 ≤ c ≤ 57)%N)
    (py (DecimalString.NilEmpty.string_of_uint d)).
Proof.
  induction d; cbn [DecimalString.NilEmpty.string_of_uint];
    try apply Forall_nil_2;
    (apply Forall_cons; split; [vm_compute; split; discriminate|exact IHd]).
Qed.

Lemma str_int_chars z :
  Forall (fun c => (48 ≤ c ≤ 57)%N ∨ c = 45%N) (str_int z).
Proof.
  unfold str_int. destruct (Z.to_int z) as [d|d];
    cbn [DecimalString.NilEmpty.string_of_int].
  - eapply Forall_impl; [apply string_of_uint_digits|]. intros c Hc. by left.
  - apply Forall_cons. split; [by right|].
    eapply Forall_impl; [apply string_of_uint_digits|]. intros c Hc. by left.
Qed.

Section NodeIds.
Context `{PyRuntime}.

(** The identifier that [parse_node_name] and [get_node_names] give a node
    contains an underscore, so the writer never takes it for a plain
    alphanumeric identifier: it is written between double quotes, and
    without any change, since it contains nothing to escape. *)
Theorem node_ids_are_quoted (node_name : str) (g : Z) (fp : str) :
  ∃ n, parse_node_name node_name g = (g + 1, Ok n)
       ∧ id n = py "node_" ++ str_int (g + 1)
       ∧ DotWriter.id (VStr (id n)) fp
         = (fp ++ [DQUOTE] ++ id n ++ [DQUOTE], Ok tt)
       ∧ DotWriter.node (VStr (id n)) [] fp
         = (fp ++ [TAB] ++ [DQUOTE] ++ id n ++ [DQUOTE] ++ py ";" ++ [LF],
            Ok tt).
Proof.
  assert (id_text (VStr (py "node_" ++ str_int (g + 1)))
          = [DQUOTE] ++ py "node_" ++ str_int (g + 1) ++ [DQUOTE]) as Htext.
  { cbn [id_text].
    assert (isalnum (py "node_" ++ str_int (g + 1)) = false) as ->.
    { change (py "node_") with (py "node" ++ [95%N]).
      rewrite <- app_assoc. cbn [app py List.map list_ascii_of_string isalnum].
      cbn [forallb]. rewrite !andb_assoc.
      apply andb_false_iff. left. apply andb_false_r. }
    cbn [andb]. unfold quoted.
    assert (∀ s, Forall (fun c => (48 ≤ c ≤ 57)%N ∨ c = 45%N ∨ c = 95%N
                                  ∨ (97 ≤ c ≤ 122)%N) s →
                 flat_map escape_char s = s) as Hplain.
    { induction 1 as [|c s Hc _ IH]; [done|]. cbn [flat_map]. rewrite IH.
      unfold escape_char, BACKSLASH, LF, TAB, DQUOTE.
      destruct (N.eqb_spec c 92), (N.eqb_spec c 10), (N.eqb_spec c 9),
        (N.eqb_spec c 34); try lia. done. }
    rewrite Hplain; [by rewrite <- app_assoc|]. apply Forall_app. split.
    - repeat (apply Forall_cons; split; [vm_compute; intuition discriminate|]).
      apply Forall_nil_2.
    - eapply Forall_impl; [apply str_int_chars|]. intros c [Hc|Hc]; [by left|right; by left]. }
  destruct (absolute_rpartition node_name) as (ns & base & E).
  eexists. split; [by apply parse_node_name_run|]. cbn [id].
  split_and!.
  - done.
  - rewrite id_run by done. rewrite Htext. by rewrite <- !app_assoc.
  - rewrite (node_run (VStr (py "node_" ++ str_int (g + 1))) [] fp eq_refl
               (Forall_nil_2 _)).
    rewrite Htext. cbn [attr_list_text]. by rewrite <- !app_assoc.
Qed.

(** ** Hidden nodes *)

(** The full name of a parsed node is hidden, in the sense of
    [_is_hidden_name], exactly when its base name starts with the hidden
    prefix or its namespace is hidden. [get_node_names] leaves a pair out
    for one of two reasons. A base name that starts with the hidden prefix
    (and contains no [/]) makes the full name built from the pair hidden as
    well. An empty base name does not: the pair is left out, but its full
    name is hidden only if its namespace is. *)
Theorem hidden_full_name (node_name : str) (g : Z) :
  (∃ n, parse_node_name node_name g = (g + 1, Ok n)
        ∧ _is_hidden_name (full_name n)
          = _is_hidden_name (namespace n)
            || startswith (name n) HIDDEN_NODE_PREFIX)
  ∧ (∀ base ns,
       SLASH ∉ base → startswith base HIDDEN_NODE_PREFIX = true →
       get_node_names [(base, ns)] false g = (g, Ok [])
       ∧ _is_hidden_name
           (ns ++ (if endswith ns (py "/") then [] else py "/") ++ base)
         = true)
  ∧ (∀ ns,
       get_node_names [([], ns)] false g = (g, Ok [])
       ∧ _is_hidden_name
           (ns ++ (if endswith ns (py "/") then [] else py "/") ++ [])
         = _is_hidden_name ns).
Proof.
  split_and!.
  - destruct (absolute_rpartition node_name) as (ns & base & E).
    destruct (rpartition_Some _ _ _ _ E) as [Heq Hbase].
    eexists. split; [by apply parse_node_name_run|].
    cbn [name namespace full_name].
    rewrite Heq, hidden_app, (hidden_segment base Hbase). f_equal.
    case_decide as Hns; [|done]. subst ns.
    unfold _is_hidden_name. cbn [py List.map list_ascii_of_string split].
    change (N.eqb (N_of_ascii "/") SLASH) with true. cbn [existsb].
    by destruct (startswith [] HIDDEN_NODE_PREFIX).
  - intros base ns Hbase Hpre. split.
    + cbn [get_node_names fst]. rewrite Hpre.
      by rewrite andb_false_r.
    + destruct (endswith ns (py "/")) eqn:Hend.
      * apply endswith_slash in Hend as [t ->].
        rewrite <- !app_assoc. cbn [app].
        rewrite hidden_app, (hidden_segment base Hbase), Hpre.
        apply orb_true_r.
      * change (py "/" ++ base) with (SLASH :: base).
        rewrite hidden_app, (hidden_segment base Hbase), Hpre.
        apply orb_true_r.
  - intros ns. split; [done|].
    destruct (endswith ns (py "/")) eqn:Hend.
    + by rewrite !app_nil_r.
    + change (py "/" ++ []) with [SLASH]. rewrite hidden_app.
      destruct (_is_hidden_name ns) eqn:Hns; [done|]. cbn [orb].
      unfold _is_hidden_name. cbn [split existsb]. rewrite orb_false_r.
      destruct HIDDEN_NODE_PREFIX as [|c pre] eqn:Hp; [|done].
      unfold _is_hidden_name in Hns. rewrite Hp in Hns.
      destruct (split_not_nil SLASH ns). revert Hns.
      destruct (split SLASH ns) as [|x l]; [done|].
      cbn [existsb]. by rewrite startswith_nil.
Qed.

End NodeIds.

(** ** Integer colour components *)

(** An [int] given as a colour component is not scaled: zero and negative
    integers give channel 0 and every positive integer gives 255, so
    integer triples only produce the eight saturated colours. *)
Theorem color_int_components (r g b : Z) :
  DotWriter.float2int (DotWriter.NInt r) = Ok (if r <=? 0 then 0 else 255)
  ∧ DotWriter.color (DotWriter.NInt r, DotWriter.NInt g, DotWriter.NInt b)
    = Ok (py "#" ++ (if r <=? 0 then py "00" else py "ff")
                 ++ (if g <=? 0 then py "00" else py "ff")
                 ++ (if b <=? 0 then py "00" else py "ff")).
Proof.
  assert (∀ z, DotWriter.float2int (DotWriter.NInt z)
               = Ok (if z <=? 0 then 0 else 255)) as Hint.
  { intros z. unfold DotWriter.float2int.
    cbn [DotWriter.le_zero DotWriter.ge_one].
    destruct (Z.leb_spec z 0); [done|]. destruct (Z.leb_spec 1 z); [done|lia]. }
  split; [apply Hint|].
  rewrite (color_run _ _ _ _ _ _ (Hint r) (Hint g) (Hint b)).
  by destruct (r <=? 0), (g <=? 0), (b <=? 0).
Qed.

(** * Closed instances *)

#[local] Existing Instance example_runtime.

(** C1 as the specification has it fails: a dictionary that is not empty
    and whose values are all [None] still gets its bracket pair. *)
Lemma all_null_attrs_keep_brackets :
  Forall (fun kv => kv.2 = VNone) [(py "color", VNone)]
  ∧ DotWriter.attr_list [(py "color", VNone)] [] = (py " []", Ok tt)
  ∧ DotWriter.node (VStr (py "n1")) [(py "color", VNone)] []
    = ([TAB] ++ py "n1 [];" ++ [LF], Ok tt).
Proof. split_and!; [by repeat constructor|done|done]. Qed.

(** C3 as the specification has it fails for floats: the float [1e22] is
    the number 10000000000000000000000, but it is written with an exponent,
    and a float that is not finite is written as a word. Neither text is a
    plain decimal. *)
Lemma float_written_with_exponent :
  (∃ m e, Prim2SF 1e22 = S754_finite false m e
          ∧ Z.pos m * 2 ^ e = 10 ^ 22)
  ∧ DotWriter.id (VFloat 1e22) [] = (py "1e+22", Ok tt)
  ∧ py "1e+22" ≠ py "10000000000000000000000.0"
  ∧ plain_decimal (py "10000000000000000000000.0") = true
  ∧ plain_decimal (py "1e+22") = false
  ∧ DotWriter.id (VFloat infinity) [] = (py "inf", Ok tt)
  ∧ DotWriter.id (VFloat nan) [] = (py "nan", Ok tt)
  ∧ plain_decimal (py "inf") = false
  ∧ plain_decimal (py "nan") = false.
Proof.
  split_and!; try (vm_compute; reflexivity); try discriminate.
  eexists _, _. split; vm_compute; reflexivity.
Qed.

Lemma attr_list_skips_null_witness :
  DotWriter.attr_list
    [(py "label", VStr (py "hello world")); (py "color", VNone)] []
  = (py " [label=" ++ [DQUOTE] ++ py "hello world" ++ [DQUOTE] ++ py "]",
     Ok tt).
Proof.
  assert (renderable
            [(py "label", VStr (py "hello world")); (py "color", VNone)])
    as Hr by (repeat constructor).
  destruct (attr_list_skips_null _ [] Hr) as [-> _].
  vm_compute. reflexivity.
Defined.

Lemma id_rendering_witness :
  DotWriter.id (VStr (py "a b")) [] = ([DQUOTE] ++ py "a b" ++ [DQUOTE], Ok tt)
  ∧ DotWriter.id (VStr (py "abc123")) [] = (py "abc123", Ok tt)
  ∧ DotWriter.id (VFloat 0.5) [] = (py "0.5", Ok tt)
  ∧ plain_decimal (str_float 0.5) = true.
Proof.
  destruct (id_rendering [])
    as (_ & Hfloat & _ & Hdec & _ & _ & Hplain & Hquoted & _).
  split_and!.
  - rewrite (Hquoted (py "a b")); [reflexivity|left; reflexivity].
  - rewrite (Hplain (py "abc123")); reflexivity.
  - rewrite (Hfloat 0.5%float). reflexivity.
  - rewrite (Hdec 0.5%float). reflexivity.
Defined.

Lemma id_bool_is_number_witness :
  ∃ fp' e, DotWriter.id VOther [] = (fp', Raise e).
Proof.
  destruct (id_bool_is_number []) as (_ & _ & Hiff & _).
  apply (Hiff VOther). repeat split; intros ?; discriminate.
Defined.

Lemma unsupported_type_raises_witness :
  DotWriter.node VNone [] [] = ([TAB], Raise TypeError)
  ∧ ∃ fp', DotWriter.attr_list [(py "shape", VOther)] [] = (fp', Raise TypeError).
Proof.
  destruct (unsupported_type_raises []) as (_ & _ & _ & Hattr & Hnode & _).
  split.
  - apply (Hnode VNone []). reflexivity.
  - apply (Hattr [(py "shape", VOther)] (py "shape")). reflexivity.
Defined.

Lemma insertion_order_irrelevant_witness :
  DotWriter.node (VStr (py "n")) [(py "b", VInt 2); (py "a", VInt 1)] []
  = DotWriter.node (VStr (py "n")) [(py "a", VInt 1); (py "b", VInt 2)] [].
Proof.
  assert (NoDup [(py "b", VInt 2); (py "a", VInt 1)].*1) as Hnd.
  { apply NoDup_cons. split.
    - intros Hin. apply list_elem_of_singleton in Hin. discriminate Hin.
    - apply NoDup_singleton. }
  destruct (insertion_order_irrelevant
              [(py "b", VInt 2); (py "a", VInt 1)]
              [(py "a", VInt 1); (py "b", VInt 2)] Hnd (perm_swap _ _ _))
    as (_ & _ & _ & _ & _ & Hnode & _).
  apply Hnode.
Defined.

Lemma parse_node_name_splits_at_last_slash_witness :
  absolute (py "/a/b") = py "/a/b".
Proof.
  destruct (parse_node_name_splits_at_last_slash (py "/a/b") 0)
    as ((_ & Habs & _) & _).
  apply Habs. reflexivity.
Defined.

Lemma parse_node_name_total_witness :
  ∃ e, unpack2 (rsplit1 SLASH (py "foo")) 0 = (0, Raise e).
Proof.
  destruct parse_node_name_total as (Hiff & _).
  apply (Hiff (py "foo") 0).
  apply (bool_decide_eq_true_1 (SLASH ∉ py "foo")). reflexivity.
Defined.

Lemma identifiers_are_fresh_witness :
  id (mkNodeName (py "a") (py "/") (py "/a") (py "node_1"))
  ≠ id (mkNodeName (py "a") (py "/") (py "/a") (py "node_2")).
Proof.
  destruct identifiers_are_fresh as (_ & _ & Htwice & _).
  apply (Htwice (py "a") g_id_init 1 2); reflexivity.
Defined.

Lemma color_clamps_then_scales_witness :
  ∃ n, DotWriter.float2int (DotWriter.NFloat 0.25) = Ok n ∧ 0 ≤ n ≤ 255.
Proof.
  destruct color_clamps_then_scales as (_ & _ & _ & Hrange & _).
  apply (Hrange (DotWriter.NFloat 0.25)). vm_compute. reflexivity.
Defined.

Lemma split_join_round_trip_witness :
  split SLASH (join [SLASH] [py "a"; py "b"]) = [py "a"; py "b"].
Proof.
  destruct (split_join_round_trip SLASH) as (_ & Hjoin & _).
  apply (Hjoin [py "a"; py "b"]); [discriminate|].
  repeat (apply Forall_cons; split;
          [apply (bool_decide_eq_true_1 (SLASH ∉ _)); reflexivity|]).
  apply Forall_nil_2.
Defined.

Lemma hidden_name_by_segment_witness :
  _is_hidden_name (py "_x") = startswith (py "_x") HIDDEN_NODE_PREFIX.
Proof.
  destruct hidden_name_by_segment as (_ & _ & Hsegment & _).
  apply (Hsegment (py "_x")).
  apply (bool_decide_eq_true_1 (SLASH ∉ py "_x")). reflexivity.
Defined.

Lemma get_absolute_node_name_spec_witness :
  ∃ a, get_absolute_node_name (py "foo") = Some a
       ∧ startswith a (py "/") = true.
Proof.
  destruct get_absolute_node_name_spec as (_ & Hsome & _).
  destruct (Hsome (py "foo")) as (a & Ha & Hslash & _); [discriminate|].
  exists a. split; [exact Ha|exact Hslash].
Defined.

Lemma parse_node_name_recovers_pair_witness :
  parse_node_name
    (py "/ns" ++ (if endswith (py "/ns") (py "/") then [] else py "/")
              ++ py "n") 0
  = (0 + 1,
     Ok {| name := py "n"; namespace := py "/ns";
           full_name :=
             py "/ns" ++ (if endswith (py "/ns") (py "/") then [] else py "/")
                      ++ py "n";
           id := py "node_" ++ str_int (0 + 1) |}).
Proof.
  apply (parse_node_name_recovers_pair (py "n") (py "/ns") 0).
  - apply (bool_decide_eq_true_1 (SLASH ∉ py "n")). reflexivity.
  - reflexivity.
  - right. reflexivity.
Defined.

Lemma get_node_names_filters_witness :
  ∃ ns, get_node_names [(py "a", py "/")] true 0
        = (0 + Z.of_nat (length ns), Ok ns)
        ∧ List.map (fun n => (name n, namespace n)) ns = [(py "a", py "/")].
Proof.
  destruct (get_node_names_filters [(py "a", py "/")] true 0)
    as (ns & Hrun & _ & _ & Hall & _).
  exists ns. split; [exact Hrun|apply Hall; reflexivity].
Defined.

Lemma has_duplicates_iff_witness :
  has_duplicates [py "a"; py "b"; py "a"] = true.
Proof.
  destruct has_duplicates_iff as (Hiff & _).
  apply (Hiff [py "a"; py "b"; py "a"]).
  exists [], (py "a"), [py "b"], []. reflexivity.
Defined.

Lemma escape_injective_witness :
  DotWriter.escape (py "a b") = DotWriter.escape (py "a b").
Proof. apply (escape_injective (py "a b") (py "a b")). reflexivity. Defined.

Lemma string_ids_distinct_witness :
  DotWriter.id (VStr (py "a")) [] ≠ DotWriter.id (VStr (py "b")) [].
Proof. apply (string_ids_distinct (py "a") (py "b") []). discriminate. Defined.

Lemma clean_spec_witness :
  DotWriter.clean (py "a_b") = py "a_b".
Proof.
  destruct (clean_spec (py "a_b")) as (_ & _ & _ & _ & Hfix).
  apply Hfix.
  repeat (apply Forall_cons; split;
          [first [left; reflexivity|right; reflexivity]|]).
  apply Forall_nil_2.
Defined.

Lemma clean_needs_no_escape_witness :
  DotWriter.escape (py "ab") = [DQUOTE] ++ py "ab" ++ [DQUOTE].
Proof.
  destruct clean_needs_no_escape as (_ & Hplain & _).
  apply (Hplain (py "ab"));
    apply (bool_decide_eq_true_1 (_ ∉ py "ab")); reflexivity.
Defined.

Lemma writer_appends_witness :
  (DotWriter.begin_graph [] >> DotWriter.end_graph) (py "x")
  = (py "x" ++ (py "digraph {" ++ [LF]) ++ (DotWriter.end_graph []).1,
     (DotWriter.end_graph []).2).
Proof.
  destruct writer_appends
    as (_ & _ & _ & _ & _ & _ & _ & Hbegin & _ & Hend & _ & _ & Hseq).
  apply (Hseq (DotWriter.begin_graph []) DotWriter.end_graph (py "x")
           (py "digraph {" ++ [LF]) (Hbegin []) Hend).
  reflexivity.
Defined.

Lemma begin_graph_rendering_witness :
  DotWriter.begin_graph [(py "rankdir", VStr (py "LR"))] []
  = (py "digraph {" ++ [LF] ++ [TAB] ++ py "rankdir=LR;" ++ [LF], Ok tt).
Proof.
  assert (renderable [(py "rankdir", VStr (py "LR"))]) as Hr
    by (repeat constructor).
  destruct (begin_graph_rendering _ [] Hr) as [-> _].
  vm_compute. reflexivity.
Defined.

Lemma hidden_full_name_witness :
  get_node_names [(py "_b", py "/a")] false 0 = (0, Ok [])
  ∧ _is_hidden_name (py "/a/_b") = true
  ∧ get_node_names [([], py "/x")] false 0 = (0, Ok [])
  ∧ _is_hidden_name (py "/x/") = false.
Proof.
  destruct (hidden_full_name [] 0) as (_ & Hpre & Hempty).
  destruct (Hpre (py "_b") (py "/a")) as [Hdrop Hhid];
    [apply (bool_decide_eq_true_1 (SLASH ∉ py "_b")); reflexivity
    |reflexivity|].
  destruct (Hempty (py "/x")) as [Hdrop' Hhid'].
  split_and!; [exact Hdrop|exact Hhid|exact Hdrop'|].
  etrans; [exact Hhid'|reflexivity].
Defined.
